(** * The root expression of the design: staged walk, lookups, validation

    A shallow embedding of [expr/root.go]: the [RootExpr] registry, the
    [NameMap] decoder, the staged walker [WalkSets], the lookups and
    [HTTPSchemes], and [Validate], followed by the properties that the
    design document states about them. *)

From Stdlib Require Import List String Ascii Bool Arith PeanoNat Lia Permutation.
Import ListNotations.
Local Open Scope string_scope.
Local Open Scope nat_scope.
Local Open Scope list_scope.

(** ** Outcomes of Go code

    A Go function either returns or panics (an index out of range, a nil
    dereference, a failed type assertion). *)

Inductive Go (A : Type) : Type :=
| Ret (a : A)
| Panic.
Arguments Ret {A} a.
Arguments Panic {A}.

Definition bindGo {A B : Type} (m : Go A) (k : A -> Go B) : Go B :=
  match m with
  | Ret a => k a
  | Panic => Panic
  end.

(** [*p]: a panic on the nil pointer. *)
Definition deref {A : Type} (p : option A) : Go A :=
  match p with
  | Some x => Ret x
  | None => Panic
  end.

(** [s[i]] on a slice: a panic when [i] is out of range. *)
Definition index {A : Type} (s : list A) (i : nat) : Go A :=
  match nth_error s i with
  | Some x => Ret x
  | None => Panic
  end.

(** ** [strings.Split] with a one-byte separator

    Go strings are byte sequences; the separator of [NameMap] is the single
    byte [":"]. The result always has one more element than the string has
    separators; for the empty string it is the one-element slice holding the
    empty string. *)

Fixpoint Split (s : string) (sep : ascii) : list string :=
  match s with
  | EmptyString => [EmptyString]
  | String c rest =>
      if Ascii.eqb c sep then EmptyString :: Split rest sep
      else match Split rest sep with
           | [] => [String c EmptyString]
           | h :: t => String c h :: t
           end
  end.

Definition colon : ascii := ":"%char.

(** ** [NameMap] (root.go, lines 61-69) *)

Definition NameMap (encoded : string) : Go (string * string) :=
  let elems := Split encoded colon in
  bindGo (index elems 0) (fun attName =>
  let name := attName in
  if 1 <? List.length elems
  then bindGo (index elems 1) (fun name => Ret (attName, name))
  else Ret (attName, name)).

(** A string without the separator byte. *)
Fixpoint no_colon (s : string) : Prop :=
  match s with
  | EmptyString => True
  | String c rest => c <> colon /\ no_colon rest
  end.

(** ** [sort.SliceStable]

    The Go library sorts the slice in place through two operations on
    indices: [Less i j], the caller's closure, which reads the slice as it is
    at the time of the call, and [Swap i j]. Blocks of 20 elements are
    sorted by insertion, then merged pairwise with [symMerge]. Loops carry
    their Go guard; the extra counter only bounds the number of iterations
    and is always at least the number of iterations the guard allows. All
    indices the library computes lie within the slice; on an index outside
    it, where Go would panic, [Swap] leaves the slice as it is. *)

Section SliceStable.
Context {A : Type}.

(** The closure handed to [sort.SliceStable]: given the slice in its
    current state, compares the elements at two indices. *)
Variable less : list A -> nat -> nat -> bool.

Fixpoint assign (d : list A) (i : nat) (x : A) : list A :=
  match d, i with
  | [], _ => []
  | _ :: t, 0 => x :: t
  | h :: t, S i' => h :: assign t i' x
  end.

Definition Swap (d : list A) (i j : nat) : list A :=
  match nth_error d i, nth_error d j with
  | Some x, Some y => assign (assign d i y) j x
  | _, _ => d
  end.

(** [for j := i; j > a && data.Less(j, j-1); j-- { data.Swap(j, j-1) }] *)
Fixpoint insertion_inner (a j : nat) (d : list A) : list A :=
  match j with
  | 0 => d
  | S j' =>
      if (a <? j) && less d j j'
      then insertion_inner a j' (Swap d j j')
      else d
  end.

(** [for i := a + 1; i < b; i++ { ... }] *)
Fixpoint insertion_outer (fuel a i b : nat) (d : list A) : list A :=
  match fuel with
  | 0 => d
  | S fuel' =>
      if i <? b
      then insertion_outer fuel' a (S i) b (insertion_inner a i d)
      else d
  end.

Definition insertionSort (d : list A) (a b : nat) : list A :=
  insertion_outer b a (a + 1) b d.

(** [for i := 0; i < n; i++ { data.Swap(a+i, b+i) }] *)
Fixpoint swapRange (d : list A) (a b n : nat) : list A :=
  match n with
  | 0 => d
  | S n' => swapRange (Swap d a b) (S a) (S b) n'
  end.

(** [for i != j { if i > j {...; i -= j} else {...; j -= i} }] followed by
    the final [swapRange(data, m-i, m, i)]. *)
Fixpoint rotate_loop (fuel : nat) (d : list A) (m i j : nat) : list A :=
  match fuel with
  | 0 => d
  | S fuel' =>
      if i =? j then swapRange d (m - i) m i
      else if j <? i
           then rotate_loop fuel' (swapRange d (m - i) m j) m (i - j) j
           else rotate_loop fuel' (swapRange d (m - i) (m + j - i) i) m i (j - i)
  end.

Definition rotate (d : list A) (a m b : nat) : list A :=
  rotate_loop (S (b - a)) d m (m - a) (b - m).

(** The binary searches of [symMerge]:
    [for i < j { h := int(uint(i+j) >> 1); if test(h) { i = h + 1 } else { j = h } }]. *)
Fixpoint bsearch (fuel : nat) (test : nat -> bool) (i j : nat) : nat :=
  match fuel with
  | 0 => i
  | S fuel' =>
      if i <? j
      then let h := (i + j) / 2 in
           if test h then bsearch fuel' test (h + 1) j
           else bsearch fuel' test i h
      else i
  end.

(** [for k := a; k < i-1; k++ { data.Swap(k, k+1) }] *)
Fixpoint shift_up (fuel : nat) (d : list A) (k i : nat) : list A :=
  match fuel with
  | 0 => d
  | S fuel' =>
      if k <? i - 1 then shift_up fuel' (Swap d k (k + 1)) (S k) i else d
  end.

(** [for k := m; k > i; k-- { data.Swap(k, k-1) }] *)
Fixpoint shift_down (d : list A) (k i : nat) : list A :=
  match k with
  | 0 => d
  | S k' => if i <? k then shift_down (Swap d k k') k' i else d
  end.

Fixpoint symMerge (fuel : nat) (d : list A) (a m b : nat) : list A :=
  match fuel with
  | 0 => d
  | S fuel' =>
      if m - a =? 1 then
        let i := bsearch b (fun h => less d h a) m b in
        shift_up b d a i
      else if b - m =? 1 then
        let i := bsearch b (fun h => negb (less d m h)) a m in
        shift_down d m i
      else
        let mid := (a + b) / 2 in
        let n := mid + m in
        let '(start, r) := if mid <? m then (n - b, mid) else (a, m) in
        let p := n - 1 in
        let start := bsearch b (fun c => negb (less d (p - c) c)) start r in
        let end_ := n - start in
        let d := if (start <? m) && (m <? end_)
                 then rotate d start m end_ else d in
        let d := if (a <? start) && (start <? mid)
                 then symMerge fuel' d a start mid else d in
        if (mid <? end_) && (end_ <? b)
        then symMerge fuel' d mid end_ b else d
  end.

(** First loop of [stable]:
    [for b <= n { insertionSort(data, a, b); a = b; b += blockSize }];
    returns the final [a] with the slice. *)
Fixpoint stable_blocks (fuel : nat) (d : list A) (a b n blockSize : nat)
  : nat * list A :=
  match fuel with
  | 0 => (a, d)
  | S fuel' =>
      if b <=? n
      then stable_blocks fuel' (insertionSort d a b) b (b + blockSize) n blockSize
      else (a, d)
  end.

(** Inner loop of the merge phase:
    [for b <= n { symMerge(data, a, a+blockSize, b); a = b; b += 2 * blockSize }]. *)
Fixpoint stable_pass (fuel : nat) (d : list A) (a b n blockSize : nat)
  : nat * list A :=
  match fuel with
  | 0 => (a, d)
  | S fuel' =>
      if b <=? n
      then stable_pass fuel' (symMerge n d a (a + blockSize) b)
                       b (b + 2 * blockSize) n blockSize
      else (a, d)
  end.

(** [for blockSize < n { ...; blockSize *= 2 }] *)
Fixpoint stable_merge (fuel : nat) (d : list A) (n blockSize : nat) : list A :=
  match fuel with
  | 0 => d
  | S fuel' =>
      if blockSize <? n then
        let '(a, d) := stable_pass n d 0 (2 * blockSize) n blockSize in
        let m := a + blockSize in
        let d := if m <? n then symMerge n d a m n else d in
        stable_merge fuel' d n (2 * blockSize)
      else d
  end.

Definition stable (d : list A) (n : nat) : list A :=
  let blockSize := 20 in
  let '(a, d) := stable_blocks n d 0 blockSize n blockSize in
  let d := insertionSort d a n in
  stable_merge n d n blockSize.

Definition SliceStable (d : list A) : list A := stable d (List.length d).

End SliceStable.

(** [s[i] = x] on a slice: a panic when [i] is out of range. *)
Definition store {A : Type} (s : list A) (i : nat) (x : A) : Go (list A) :=
  if i <? List.length s then Ret (assign s i x) else Panic.

(** ** [sort.Strings]

    Ascending byte-wise order. The order on strings is total, so the sorted
    slice does not depend on the library's algorithm. *)

Fixpoint insert_sorted (x : string) (l : list string) : list string :=
  match l with
  | [] => [x]
  | y :: t => if String.leb x y then x :: l else y :: insert_sorted x t
  end.

Definition sort_Strings (l : list string) : list string :=
  fold_right insert_sorted [] l.

(** ** The expressions held by the root

    Modelled from the spec: the node types of the package that are declared
    outside root.go (section 3 of the design document). Each node keeps the
    fields root.go reads; a pointer to a node is the node itself, and only
    [RootExpr.API], which root.go tests against nil, is optional. *)

Record AttributeExpr : Type := { Description : string }.

Record UserTypeExpr : Type :=
  { UserTypeExpr_AttributeExpr : AttributeExpr; TypeName : string }.

Record ResultTypeExpr : Type :=
  { ResultTypeExpr_UserTypeExpr : UserTypeExpr; Identifier : string }.

(** The interface [UserType]: its dynamic type is [*UserTypeExpr] or
    [*ResultTypeExpr]. *)
Inductive UserTypeI : Type :=
| IsUserTypeExpr (u : UserTypeExpr)
| IsResultTypeExpr (rt : ResultTypeExpr).

Definition Name (t : UserTypeI) : string :=
  match t with
  | IsUserTypeExpr u => TypeName u
  | IsResultTypeExpr rt => TypeName (ResultTypeExpr_UserTypeExpr rt)
  end.

Definition Attribute (t : UserTypeI) : AttributeExpr :=
  match t with
  | IsUserTypeExpr u => UserTypeExpr_AttributeExpr u
  | IsResultTypeExpr rt => UserTypeExpr_AttributeExpr (ResultTypeExpr_UserTypeExpr rt)
  end.

Record MethodExpr : Type := { MethodName : string }.

Record ServiceExpr : Type :=
  { ServiceName : string; Methods : list MethodExpr }.

Record ErrorExpr : Type := { ErrorName : string }.

Record SchemeExpr : Type := { SchemeName : string }.

Record HTTPEndpointExpr : Type := { HTTPEndpoint_Method : string }.

Record HTTPFileServerExpr : Type := { FilePath : string }.

Record HTTPServiceExpr : Type :=
  { HTTPService_ServiceName : string;
    HTTPService_ParentName : string;
    HTTPEndpoints : list HTTPEndpointExpr;
    FileServers : list HTTPFileServerExpr }.

Definition HTTPServiceExpr_Name (svc : HTTPServiceExpr) : string :=
  HTTPService_ServiceName svc.

Record GRPCEndpointExpr : Type := { GRPCEndpoint_Method : string }.

Record GRPCServiceExpr : Type :=
  { GRPCService_ServiceName : string;
    GRPCService_ParentName : string;
    GRPCEndpoints : list GRPCEndpointExpr }.

Definition GRPCServiceExpr_Name (svc : GRPCServiceExpr) : string :=
  GRPCService_ServiceName svc.

Record ServerExpr : Type := { URL : string }.

Record HTTPExpr : Type := { HTTP_Services : list HTTPServiceExpr }.

Record GRPCExpr : Type := { GRPC_Services : list GRPCServiceExpr }.

Record APIExpr : Type :=
  { APIName : string;
    Servers : list ServerExpr;
    HTTP : HTTPExpr;
    GRPC : GRPCExpr }.

(** Modelled from the spec: [NewAPIExpr], declared outside root.go, creates
    an empty default API node with the given name. *)
Definition NewAPIExpr (name : string) : APIExpr :=
  {| APIName := name;
     Servers := [];
     HTTP := {| HTTP_Services := [] |};
     GRPC := {| GRPC_Services := [] |} |}.

(** [TypeMap] (root.go, lines 47-53); the external instance is kept by name. *)
Record TypeMap : Type := { User : UserTypeI; External : string }.

(** [MetaExpr] (root.go, line 44). *)
Definition MetaExpr : Type := list (string * list string).

(** [RootExpr] (root.go, lines 16-41). *)
Record RootExpr : Type :=
  { API : option APIExpr;
    Services : list ServiceExpr;
    Errors : list ErrorExpr;
    Types : list UserTypeI;
    ResultTypes : list UserTypeI;
    GeneratedTypes : list UserTypeI;
    Conversions : list TypeMap;
    Creations : list TypeMap;
    Schemes : list SchemeExpr;
    Meta : MetaExpr }.

Definition with_API (r : RootExpr) (a : APIExpr) : RootExpr :=
  {| API := Some a;
     Services := Services r;
     Errors := Errors r;
     Types := Types r;
     ResultTypes := ResultTypes r;
     GeneratedTypes := GeneratedTypes r;
     Conversions := Conversions r;
     Creations := Creations r;
     Schemes := Schemes r;
     Meta := Meta r |}.

Definition with_HTTP_Services (a : APIExpr) (l : list HTTPServiceExpr) : APIExpr :=
  {| APIName := APIName a;
     Servers := Servers a;
     HTTP := {| HTTP_Services := l |};
     GRPC := GRPC a |}.

Definition with_GRPC_Services (a : APIExpr) (l : list GRPCServiceExpr) : APIExpr :=
  {| APIName := APIName a;
     Servers := Servers a;
     HTTP := HTTP a;
     GRPC := {| GRPC_Services := l |} |}.

(** The interface [eval.Expression], as a closed set of tagged nodes, and
    [eval.ExpressionSet], a slice of interface values ([None] is nil). *)
Inductive Expression : Type :=
| ExprRoot (r : RootExpr)
| ExprAPI (a : APIExpr)
| ExprAttribute (a : AttributeExpr)
| ExprResultType (rt : ResultTypeExpr)
| ExprService (s : ServiceExpr)
| ExprMethod (m : MethodExpr)
| ExprHTTPService (svc : HTTPServiceExpr)
| ExprHTTPEndpoint (e : HTTPEndpointExpr)
| ExprHTTPFileServer (s : HTTPFileServerExpr)
| ExprGRPCService (svc : GRPCServiceExpr)
| ExprGRPCEndpoint (e : GRPCEndpointExpr).

Definition ExpressionSet : Type := list (option Expression).

(** [make(eval.ExpressionSet, n)]: [n] nil entries. *)
Definition make (n : nat) : ExpressionSet := repeat None n.

(** [append(s, e)] *)
Definition append (s : ExpressionSet) (e : Expression) : ExpressionSet :=
  s ++ [Some e].

(** ** The walk, as a computation over the registry and its caller

    A walk reads and writes the root, calls the caller's function, and may
    panic. [presented] is the history of the calls made to the caller's
    function: the batch passed, with the outcome the function reported. *)

Record World (St : Type) : Type :=
  { root : RootExpr;
    callback : St;
    presented : list (ExpressionSet * bool) }.
Arguments root {St} w.
Arguments callback {St} w.
Arguments presented {St} w.

Inductive Outcome (St A : Type) : Type :=
| Done (a : A) (w : World St)
| Panicked (w : World St).
Arguments Done {St A} a w.
Arguments Panicked {St A} w.

Definition M (St A : Type) : Type := World St -> Outcome St A.

Definition ret {St A : Type} (a : A) : M St A := fun w => Done a w.

Definition bind {St A B : Type} (m : M St A) (k : A -> M St B) : M St B :=
  fun w =>
    match m w with
    | Done a w' => k a w'
    | Panicked w' => Panicked w'
    end.

Notation "x <- m ;; k" := (bind m (fun x => k))
  (at level 61, m at next level, right associativity).
Notation "m ;;; k" := (bind m (fun _ => k))
  (at level 61, right associativity).

Definition lift {St A : Type} (g : Go A) : M St A :=
  fun w => match g with Ret a => Done a w | Panic => Panicked w end.

(** The world an outcome ends in. *)
Definition final {St A : Type} (o : Outcome St A) : World St :=
  match o with Done _ w => w | Panicked w => w end.

(** [r] *)
Definition getRoot {St : Type} : M St RootExpr := fun w => Done (root w) w.

(** [r.API = a] *)
Definition setAPI {St : Type} (a : APIExpr) : M St unit :=
  fun w => Done tt {| root := with_API (root w) a;
                      callback := callback w;
                      presented := presented w |}.

(** [r.API], dereferenced: a panic on nil. *)
Definition derefAPI {St : Type} : M St APIExpr :=
  r <- getRoot ;;
  lift (deref (API r)).

(** The caller's function. Modelled from the spec: [eval.SetWalker] is
    declared outside root.go; the callback is handed one batch at a time and
    may fail. It acts on a state of its own, the registry being populated
    before the walk, and reports whether it failed ([true]) with an
    evaluation error. *)
Definition SetWalker (St : Type) : Type := ExpressionSet -> St -> St * bool.

(** [walk(set)], a statement: whatever the callback reports is dropped. *)
Definition call {St : Type} (walk : SetWalker St) (set : ExpressionSet) : M St unit :=
  fun w =>
    let '(s, failed) := walk set (callback w) in
    Done tt {| root := root w;
               callback := s;
               presented := presented w ++ [(set, failed)] |}.

(** The type assertion of [mt] to [*ResultTypeExpr] (line 90): a panic when
    the dynamic type is another one. *)
Definition assertResultTypeExpr (mt : UserTypeI) : Go ResultTypeExpr :=
  match mt with
  | IsResultTypeExpr rt => Ret rt
  | IsUserTypeExpr _ => Panic
  end.

(** [for i, t := range r.Types { types[i] = t.Attribute() }] (lines 82-84) *)
Fixpoint range_Types (ts : list UserTypeI) (i : nat) (types : ExpressionSet)
  : Go ExpressionSet :=
  match ts with
  | [] => Ret types
  | t :: rest =>
      bindGo (store types i (Some (ExprAttribute (Attribute t))))
             (fun types => range_Types rest (S i) types)
  end.

(** [for i, mt := range r.ResultTypes { mtypes[i] = ... }] (lines 89-91),
    where the stored value is [mt] asserted to [*ResultTypeExpr]. *)
Fixpoint range_ResultTypes (ts : list UserTypeI) (i : nat) (mtypes : ExpressionSet)
  : Go ExpressionSet :=
  match ts with
  | [] => Ret mtypes
  | mt :: rest =>
      bindGo (assertResultTypeExpr mt) (fun rt =>
      bindGo (store mtypes i (Some (ExprResultType rt)))
             (fun mtypes => range_ResultTypes rest (S i) mtypes))
  end.

(** [for _, e := range s.Methods { methods = append(methods, e) }] *)
Fixpoint range_Methods (ms : list MethodExpr) (methods : ExpressionSet)
  : ExpressionSet :=
  match ms with
  | [] => methods
  | e :: rest => range_Methods rest (append methods (ExprMethod e))
  end.

(** The loop over [r.Services] (lines 97-102). *)
Fixpoint range_Services (ss : list ServiceExpr) (i : nat)
         (services methods : ExpressionSet)
  : Go (ExpressionSet * ExpressionSet) :=
  match ss with
  | [] => Ret (services, methods)
  | s :: rest =>
      bindGo (store services i (Some (ExprService s))) (fun services =>
      range_Services rest (S i) services (range_Methods (Methods s) methods))
  end.

(** The closure of line 108: [i] sorts before [j] when [j]'s parent is [i].
    The sort calls it on indices of the slice only. *)
Definition HTTP_less (d : list HTTPServiceExpr) (i j : nat) : bool :=
  match nth_error d j, nth_error d i with
  | Some sj, Some si =>
      String.eqb (HTTPService_ParentName sj) (HTTPServiceExpr_Name si)
  | _, _ => false
  end.

(** The closure of line 131. *)
Definition GRPC_less (d : list GRPCServiceExpr) (i j : nat) : bool :=
  match nth_error d j, nth_error d i with
  | Some sj, Some si =>
      String.eqb (GRPCService_ParentName sj) (GRPCServiceExpr_Name si)
  | _, _ => false
  end.

(** [for _, e := range svc.HTTPEndpoints { endpoints = append(endpoints, e) }] *)
Fixpoint range_HTTPEndpoints (es : list HTTPEndpointExpr) (endpoints : ExpressionSet)
  : ExpressionSet :=
  match es with
  | [] => endpoints
  | e :: rest => range_HTTPEndpoints rest (append endpoints (ExprHTTPEndpoint e))
  end.

(** [for _, s := range svc.FileServers { servers = append(servers, s) }] *)
Fixpoint range_FileServers (fs : list HTTPFileServerExpr) (servers : ExpressionSet)
  : ExpressionSet :=
  match fs with
  | [] => servers
  | s :: rest => range_FileServers rest (append servers (ExprHTTPFileServer s))
  end.

(** The loop over [r.API.HTTP.Services] (lines 116-124). *)
Fixpoint range_HTTPServices (svcs : list HTTPServiceExpr) (i : nat)
         (httpsvcs endpoints servers : ExpressionSet)
  : Go (ExpressionSet * ExpressionSet * ExpressionSet) :=
  match svcs with
  | [] => Ret (httpsvcs, endpoints, servers)
  | svc :: rest =>
      bindGo (store httpsvcs i (Some (ExprHTTPService svc))) (fun httpsvcs =>
      range_HTTPServices rest (S i) httpsvcs
        (range_HTTPEndpoints (HTTPEndpoints svc) endpoints)
        (range_FileServers (FileServers svc) servers))
  end.

(** [for _, e := range svc.GRPCEndpoints { grpcms = append(endpoints, e) }]
    (lines 140-142): the appended-to slice is [endpoints]. *)
Fixpoint range_GRPCEndpoints (es : list GRPCEndpointExpr)
         (endpoints grpcms : ExpressionSet) : ExpressionSet :=
  match es with
  | [] => grpcms
  | e :: rest =>
      range_GRPCEndpoints rest endpoints (append endpoints (ExprGRPCEndpoint e))
  end.

(** The loop over [r.API.GRPC.Services] (lines 138-143). *)
Fixpoint range_GRPCServices (svcs : list GRPCServiceExpr) (i : nat)
         (grpcsvcs endpoints grpcms : ExpressionSet)
  : Go (ExpressionSet * ExpressionSet) :=
  match svcs with
  | [] => Ret (grpcsvcs, grpcms)
  | svc :: rest =>
      bindGo (store grpcsvcs i (Some (ExprGRPCService svc))) (fun grpcsvcs =>
      range_GRPCServices rest (S i) grpcsvcs endpoints
        (range_GRPCEndpoints (GRPCEndpoints svc) endpoints grpcms))
  end.

(** ** [WalkSets] (root.go, lines 72-146) *)

Section WalkSets.
Context {St : Type}.
Variable walk : SetWalker St.

Definition WalkSets : M St unit :=
  r <- getRoot ;;
  (match API r with
   | None => setAPI (NewAPIExpr "API")
   | Some _ => ret tt
   end) ;;;
  (* Top level API DSL *)
  api <- derefAPI ;;
  call walk [Some (ExprAPI api)] ;;;
  (* User types *)
  r <- getRoot ;;
  types <- lift (range_Types (Types r) 0 (make (List.length (Types r)))) ;;
  call walk types ;;;
  (* Result types *)
  r <- getRoot ;;
  mtypes <- lift (range_ResultTypes (ResultTypes r) 0
                                    (make (List.length (ResultTypes r)))) ;;
  call walk mtypes ;;;
  (* Services and methods *)
  r <- getRoot ;;
  sm <- lift (range_Services (Services r) 0
                             (make (List.length (Services r))) []) ;;
  call walk (fst sm) ;;;
  call walk (snd sm) ;;;
  (* HTTP services and endpoints *)
  api <- derefAPI ;;
  let httpsvcs := make (List.length (HTTP_Services (HTTP api))) in
  setAPI (with_HTTP_Services api
            (SliceStable HTTP_less (HTTP_Services (HTTP api)))) ;;;
  api <- derefAPI ;;
  hes <- lift (range_HTTPServices (HTTP_Services (HTTP api)) 0 httpsvcs [] []) ;;
  let '(httpsvcs, endpoints, servers) := hes in
  call walk httpsvcs ;;;
  call walk endpoints ;;;
  call walk servers ;;;
  (* GRPC services and endpoints *)
  api <- derefAPI ;;
  let grpcsvcs := make (List.length (GRPC_Services (GRPC api))) in
  setAPI (with_GRPC_Services api
            (SliceStable GRPC_less (GRPC_Services (GRPC api)))) ;;;
  api <- derefAPI ;;
  gg <- lift (range_GRPCServices (GRPC_Services (GRPC api)) 0 grpcsvcs endpoints []) ;;
  call walk (fst gg) ;;;
  call walk (snd gg).

End WalkSets.

(** A walk started on registry [r] with the caller's state [s]. *)
Definition start {St : Type} (r : RootExpr) (s : St) : World St :=
  {| root := r; callback := s; presented := [] |}.

(** The batches presented during a walk, in order. *)
Definition batches {St A : Type} (o : Outcome St A) : list ExpressionSet :=
  map fst (presented (final o)).

(** ** [UserType] (root.go, lines 160-172)

    Each loop returns from the function at the first element whose name
    matches; [None] is the nil interface. *)

Fixpoint range_named (ts : list UserTypeI) (name : string) : option UserTypeI :=
  match ts with
  | [] => None
  | t :: rest =>
      if String.eqb (Name t) name then Some t else range_named rest name
  end.

Definition UserType (r : RootExpr) (name : string) : option UserTypeI :=
  match range_named (Types r) name with
  | Some t => Some t
  | None =>
      match range_named (ResultTypes r) name with
      | Some t => Some t
      | None => None
      end
  end.

(** ** [HTTPSchemes] (root.go, lines 207-225) *)

(** The part of [url.URL] that root.go reads. *)
Record URLValue : Type := { Scheme : string }.

(** [schemes[k] = true] on the map used as a set; the keys are kept in a
    list without repetition. *)
Definition map_set (schemes : list string) (k : string) : list string :=
  if existsb (String.eqb k) schemes then schemes else schemes ++ [k].

Section HTTPSchemes.
(** [url.Parse]: [Some u] is a successful parse ([err == nil]); [None] is
    a failed one, for which the library returns a nil [*URL] with the
    error. *)
Variable url_Parse : string -> option URLValue.

(** The loop over [r.API.Servers] (lines 209-213): the branch taken when
    [err != nil] reads [u.Scheme] through the nil [u]. *)
Fixpoint range_Servers (servers : list ServerExpr) (schemes : list string)
  : Go (list string) :=
  match servers with
  | [] => Ret schemes
  | s :: rest =>
      match url_Parse (URL s) with
      | None =>
          bindGo (deref (@None URLValue)) (fun u =>
          range_Servers rest (map_set schemes (Scheme u)))
      | Some _ => range_Servers rest schemes
      end
  end.

Definition HTTPSchemes (r : RootExpr) : Go (list string) :=
  bindGo (deref (API r)) (fun api =>
  bindGo (range_Servers (Servers api) []) (fun schemes =>
  if List.length schemes =? 0 then Ret []
  else Ret (sort_Strings schemes))).

(** The schemes the design document asks for: those of the server URLs
    that parse, without repetition, sorted ascending. *)
Fixpoint declared_schemes (servers : list ServerExpr) (schemes : list string)
  : list string :=
  match servers with
  | [] => schemes
  | s :: rest =>
      match url_Parse (URL s) with
      | None => declared_schemes rest schemes
      | Some u => declared_schemes rest (map_set schemes (Scheme u))
      end
  end.

End HTTPSchemes.

(** ** [Validate] (root.go, lines 233-239) *)

(** Modelled from the spec: [eval.ValidationErrors], declared outside
    root.go, is a composite holding zero or more failures, each naming the
    offending node and a message. *)
Record Failure : Type := { Offender : Expression; Message : string }.

Definition ValidationErrors : Type := list Failure.

(** [verr.Add(def, message)] *)
Definition Add (verr : ValidationErrors) (def : Expression) (message : string)
  : ValidationErrors :=
  verr ++ [{| Offender := def; Message := message |}].

Definition Validate (r : RootExpr) : ValidationErrors :=
  let verr : ValidationErrors := [] in
  let verr :=
    match API r with
    | None => Add verr (ExprRoot r) "Missing API declaration"
    | Some _ => verr
    end in
  verr.

(** The reading callers give to the composite: it is an error exactly when
    it holds at least one failure. *)
Definition is_failure (verr : ValidationErrors) : bool :=
  negb (List.length verr =? 0).

(** ** The stages of the design document

    The batches of section 4.2, written as functions of the collections
    they are drawn from. *)

Definition isResultTypeExpr (t : UserTypeI) : bool :=
  match t with
  | IsResultTypeExpr _ => true
  | IsUserTypeExpr _ => false
  end.

(** The API node a walk works on: the registry's own, or the default one. *)
Definition API_of (r : RootExpr) : APIExpr :=
  match API r with
  | Some a => a
  | None => NewAPIExpr "API"
  end.

Definition nodes {A : Type} (tag : A -> Expression) (l : list A) : ExpressionSet :=
  map (fun x => Some (tag x)) l.

Definition Types_stage (r : RootExpr) : ExpressionSet :=
  map (fun t => Some (ExprAttribute (Attribute t))) (Types r).

Definition ResultTypes_stage (r : RootExpr) : ExpressionSet :=
  flat_map (fun mt => match mt with
                      | IsResultTypeExpr rt => [Some (ExprResultType rt)]
                      | IsUserTypeExpr _ => []
                      end) (ResultTypes r).

Definition Services_stage (r : RootExpr) : ExpressionSet :=
  nodes ExprService (Services r).

Definition Methods_stage (r : RootExpr) : ExpressionSet :=
  flat_map (fun s => nodes ExprMethod (Methods s)) (Services r).

Definition HTTPEndpoints_stage (svcs : list HTTPServiceExpr) : ExpressionSet :=
  flat_map (fun svc => nodes ExprHTTPEndpoint (HTTPEndpoints svc)) svcs.

Definition FileServers_stage (svcs : list HTTPServiceExpr) : ExpressionSet :=
  flat_map (fun svc => nodes ExprHTTPFileServer (FileServers svc)) svcs.

Definition GRPCEndpoints_stage (svcs : list GRPCServiceExpr) : ExpressionSet :=
  flat_map (fun svc => nodes ExprGRPCEndpoint (GRPCEndpoints svc)) svcs.

(** The transport services as a walk leaves them: sorted in place. *)
Definition sorted_HTTP (r : RootExpr) : list HTTPServiceExpr :=
  SliceStable HTTP_less (HTTP_Services (HTTP (API_of r))).

Definition sorted_GRPC (r : RootExpr) : list GRPCServiceExpr :=
  SliceStable GRPC_less (GRPC_Services (GRPC (API_of r))).

(** The registry as a completed walk leaves it. *)
Definition walked (r : RootExpr) : RootExpr :=
  with_API r (with_GRPC_Services
                (with_HTTP_Services (API_of r) (sorted_HTTP r)) (sorted_GRPC r)).

(** The batch root.go builds for the last stage: each gRPC endpoint is
    appended to the HTTP endpoints batch, and the result of the last
    [append] is what remains. *)
Definition last_stage (r : RootExpr) : ExpressionSet :=
  range_GRPCEndpoints (flat_map GRPCEndpoints (sorted_GRPC r))
                      (HTTPEndpoints_stage (sorted_HTTP r)) [].

(** The ten batches of a walk that runs to its end. *)
Definition stages (r : RootExpr) : list ExpressionSet :=
  [ [Some (ExprAPI (API_of r))];
    Types_stage r;
    ResultTypes_stage r;
    Services_stage r;
    Methods_stage r;
    nodes ExprHTTPService (sorted_HTTP r);
    HTTPEndpoints_stage (sorted_HTTP r);
    FileServers_stage (sorted_HTTP r);
    nodes ExprGRPCService (sorted_GRPC r);
    last_stage r ].

(** Handing one batch, then a sequence of batches, to the callback. *)
Definition present {St : Type} (walk : SetWalker St) (w : World St)
           (set : ExpressionSet) : World St :=
  {| root := root w;
     callback := fst (walk set (callback w));
     presented := presented w ++ [(set, snd (walk set (callback w)))] |}.

Definition present_all {St : Type} (walk : SetWalker St) (sets : list ExpressionSet)
           (w : World St) : World St :=
  fold_left (present walk) sets w.

Definition with_root {St : Type} (w : World St) (r : RootExpr) : World St :=
  {| root := r; callback := callback w; presented := presented w |}.

(** A batch holds no API node. *)
Definition no_API_node (set : ExpressionSet) : Prop :=
  forall a, ~ In (Some (ExprAPI a)) set.

(** Fail-fast, as the design document words it: once the callback has
    reported a failure on a batch, no later batch is presented. *)
Definition fail_fast {St : Type} (walk : SetWalker St) (r : RootExpr) (s : St) : Prop :=
  forall k set,
    nth_error (presented (final (WalkSets walk (start r s)))) k = Some (set, true) ->
    List.length (presented (final (WalkSets walk (start r s)))) = S k.

(** The registry after a walk is the one before it, apart from the default
    API node created when there was none. *)
Definition registry_unchanged {St : Type} (walk : SetWalker St) (r : RootExpr) (s : St)
  : Prop :=
  root (final (WalkSets walk (start r s))) = with_API r (API_of r).

(** Parent before child: [child] occurs in the batch only after [parent]. *)
Definition placed_before (parent child : Expression) (set : ExpressionSet) : Prop :=
  exists l1 l2 l3,
    set = l1 ++ Some parent :: l2 ++ Some child :: l3.

(** ** Sample registries *)

Definition never_fails : SetWalker unit := fun _ s => (s, false).

Definition always_fails : SetWalker unit := fun _ s => (s, true).

Definition empty_root : RootExpr :=
  {| API := None; Services := []; Errors := []; Types := []; ResultTypes := [];
     GeneratedTypes := []; Conversions := []; Creations := []; Schemes := [];
     Meta := [] |}.

Definition hA : HTTPServiceExpr :=
  {| HTTPService_ServiceName := "A"; HTTPService_ParentName := "";
     HTTPEndpoints := [{| HTTPEndpoint_Method := "GET /a" |}];
     FileServers := [{| FilePath := "/public" |}] |}.

Definition hB : HTTPServiceExpr :=
  {| HTTPService_ServiceName := "B"; HTTPService_ParentName := "A";
     HTTPEndpoints := [{| HTTPEndpoint_Method := "GET /a/b" |}];
     FileServers := [] |}.

Definition hX : HTTPServiceExpr :=
  {| HTTPService_ServiceName := "X"; HTTPService_ParentName := "";
     HTTPEndpoints := []; FileServers := [] |}.

Definition gA : GRPCServiceExpr :=
  {| GRPCService_ServiceName := "A"; GRPCService_ParentName := "";
     GRPCEndpoints := [{| GRPCEndpoint_Method := "A.Get" |};
                       {| GRPCEndpoint_Method := "A.List" |}] |}.

Definition gB : GRPCServiceExpr :=
  {| GRPCService_ServiceName := "B"; GRPCService_ParentName := "A";
     GRPCEndpoints := [{| GRPCEndpoint_Method := "B.Get" |}] |}.

Definition gX : GRPCServiceExpr :=
  {| GRPCService_ServiceName := "X"; GRPCService_ParentName := "";
     GRPCEndpoints := [] |}.

Definition account : UserTypeI :=
  IsUserTypeExpr {| UserTypeExpr_AttributeExpr := {| Description := "account" |};
                    TypeName := "Account" |}.

Definition account_result : UserTypeI :=
  IsResultTypeExpr
    {| ResultTypeExpr_UserTypeExpr :=
         {| UserTypeExpr_AttributeExpr := {| Description := "account result" |};
            TypeName := "AccountResult" |};
       Identifier := "application/vnd.account" |}.

Definition S1 : ServiceExpr :=
  {| ServiceName := "S1";
     Methods := [{| MethodName := "M1" |}; {| MethodName := "M2" |}] |}.

Definition S2 : ServiceExpr :=
  {| ServiceName := "S2"; Methods := [{| MethodName := "M3" |}] |}.

Definition sample_api (http : list HTTPServiceExpr) (grpc : list GRPCServiceExpr)
  : APIExpr :=
  {| APIName := "sample";
     Servers := [{| URL := "http://localhost:8080" |}];
     HTTP := {| HTTP_Services := http |};
     GRPC := {| GRPC_Services := grpc |} |}.

Definition sample_root (api : option APIExpr) : RootExpr :=
  {| API := api; Services := [S1; S2]; Errors := [];
     Types := [account]; ResultTypes := [account_result];
     GeneratedTypes := []; Conversions := []; Creations := []; Schemes := [];
     Meta := [("swagger:generate", ["false"])] |}.

(** A registry whose result types hold a node that is not a result type. *)
Definition mistyped_root : RootExpr :=
  {| API := None; Services := [S1; S2]; Errors := [];
     Types := [account]; ResultTypes := [account];
     GeneratedTypes := []; Conversions := []; Creations := []; Schemes := [];
     Meta := [] |}.

(** A stand-in for [url.Parse] on the sample URLs: the scheme is what
    precedes the first colon, and a string without a colon does not parse. *)
Definition sample_Parse (rawURL : string) : option URLValue :=
  match Split rawURL colon with
  | scheme :: _ :: _ => Some {| Scheme := scheme |}
  | _ => None
  end.

(** ** [GeneratedResultType] (root.go, lines 176-184)

    Every node met before the search ends is asserted to [*ResultTypeExpr]:
    the loop panics on a node of another dynamic type unless it has
    returned before reaching it. [None] is the nil pointer. *)

Fixpoint range_GeneratedTypes (ts : list UserTypeI) (id : string)
  : Go (option ResultTypeExpr) :=
  match ts with
  | [] => Ret None
  | t :: rest =>
      bindGo (assertResultTypeExpr t) (fun mt =>
      if String.eqb (Identifier mt) id then Ret (Some mt)
      else range_GeneratedTypes rest id)
  end.

Definition GeneratedResultType (r : RootExpr) (id : string)
  : Go (option ResultTypeExpr) :=
  range_GeneratedTypes (GeneratedTypes r) id.

(** ** [Service] (root.go, lines 187-194) *)

Fixpoint range_Services_named (ss : list ServiceExpr) (name : string)
  : option ServiceExpr :=
  match ss with
  | [] => None
  | s :: rest =>
      if String.eqb (ServiceName s) name then Some s
      else range_Services_named rest name
  end.

Definition Service (r : RootExpr) (name : string) : option ServiceExpr :=
  range_Services_named (Services r) name.

(** ** [Error] (root.go, lines 197-204) *)

Fixpoint range_Errors_named (es : list ErrorExpr) (name : string)
  : option ErrorExpr :=
  match es with
  | [] => None
  | e :: rest =>
      if String.eqb (ErrorName e) name then Some e
      else range_Errors_named rest name
  end.

Definition Error (r : RootExpr) (name : string) : option ErrorExpr :=
  range_Errors_named (Errors r) name.

(** ** [Dup] (root.go, lines 242-248)

    A Go map holds each key once; [MetaExpr] keeps its bindings in a list,
    and [is_map] says that no key is repeated. The order in which [range]
    visits a map is not specified: [range_Meta] takes the bindings in the
    order they are visited. *)

Definition is_map (m : MetaExpr) : Prop := NoDup (map fst m).

(** [m[k]], with the flag that tells a missing key. *)
Fixpoint meta_load (m : MetaExpr) (k : string) : option (list string) :=
  match m with
  | [] => None
  | (k', v) :: rest => if String.eqb k' k then Some v else meta_load rest k
  end.

(** [d[k] = v] *)
Fixpoint meta_store (d : MetaExpr) (k : string) (v : list string) : MetaExpr :=
  match d with
  | [] => [(k, v)]
  | (k', v') :: rest =>
      if String.eqb k' k then (k, v) :: rest
      else (k', v') :: meta_store rest k v
  end.

(** [for k, v := range m { d[k] = v }] *)
Fixpoint range_Meta (visited : MetaExpr) (d : MetaExpr) : MetaExpr :=
  match visited with
  | [] => d
  | (k, v) :: rest => range_Meta rest (meta_store d k v)
  end.

Definition Dup (m : MetaExpr) : MetaExpr := range_Meta m [].

(** ** Parent and child among the transport services *)

(** [child] declares [parent] as its parent: the test of the closures of
    lines 109 and 132. *)
Definition HTTP_parent_of (parent child : HTTPServiceExpr) : bool :=
  String.eqb (HTTPService_ParentName child) (HTTPServiceExpr_Name parent).

Definition GRPC_parent_of (parent child : GRPCServiceExpr) : bool :=
  String.eqb (GRPCService_ParentName child) (GRPCServiceExpr_Name parent).

(** No element of the sequence is the parent of the one just before it. *)
Fixpoint no_parent_behind {A : Type} (parent_of : A -> A -> bool) (d : list A)
  : Prop :=
  match d with
  | [] => True
  | x :: rest =>
      match rest with
      | [] => True
      | y :: _ => parent_of y x = false /\ no_parent_behind parent_of rest
      end
  end.

(** No element of the sequence is the parent of any element. *)
Definition unrelated {A : Type} (parent_of : A -> A -> bool) (d : list A) : Prop :=
  forall x y, In x d -> In y d -> parent_of x y = false.


(** The closure of lines 108 and 131, over the test it makes: the element
    at [i] sorts before the element at [j] when it is its parent. *)
Definition less_by {A : Type} (parent_of : A -> A -> bool) (d : list A)
           (i j : nat) : bool :=
  match nth_error d j, nth_error d i with
  | Some sj, Some si => parent_of si sj
  | _, _ => false
  end.

(** Generated result types for the samples. *)
Definition account_default : ResultTypeExpr :=
  {| ResultTypeExpr_UserTypeExpr :=
       {| UserTypeExpr_AttributeExpr := {| Description := "default view" |};
          TypeName := "AccountDefault" |};
     Identifier := "application/vnd.account; view=default" |}.

Definition account_tiny : ResultTypeExpr :=
  {| ResultTypeExpr_UserTypeExpr :=
       {| UserTypeExpr_AttributeExpr := {| Description := "tiny view" |};
          TypeName := "AccountTiny" |};
     Identifier := "application/vnd.account; view=tiny" |}.

Definition generated_root (generated : list UserTypeI) : RootExpr :=
  {| API := None; Services := []; Errors := []; Types := []; ResultTypes := [];
     GeneratedTypes := generated;
     Conversions := []; Creations := []; Schemes := []; Meta := [] |}.

(** * Properties *)

(** ** [NameMap] *)

Lemma Split_cases (s : string) :
  exists a,
    no_colon a /\
    ((s = a /\ Split s colon = [a]) \/
     (exists rest, s = (a ++ String colon rest)%string /\
                   Split s colon = a :: Split rest colon)).
Proof.
  induction s as [|c s IH].
  - exists EmptyString. split; [exact I|]. left. split; reflexivity.
  - destruct (Ascii.eqb_spec c colon) as [Hc|Hc].
    + subst c. exists EmptyString. split; [exact I|].
      right. exists s. split; [reflexivity|].
      cbn [Split]. rewrite Ascii.eqb_refl. reflexivity.
    + destruct IH as (a & Ha & [[Hs Hsplit]|(rest & Hs & Hsplit)]).
      * exists (String c a). split; [split; assumption|].
        left. split; [congruence|].
        cbn [Split]. apply Ascii.eqb_neq in Hc. rewrite Hc, Hsplit. reflexivity.
      * exists (String c a). split; [split; assumption|].
        right. exists rest. split; [simpl; congruence|].
        cbn [Split]. apply Ascii.eqb_neq in Hc. rewrite Hc, Hsplit. reflexivity.
Qed.

(** C10. For every input string, [NameMap] returns a pair. Its first
    component is the part of the string before the first colon, the whole
    string when there is none. Its second component is the first one when
    there is no colon, and otherwise the segment between the first colon and
    the second (up to the end of the string when there is no second colon),
    never the whole remainder when that holds another colon. *)
Theorem NameMap_decodes (encoded : string) :
  exists attName name,
    NameMap encoded = Ret (attName, name) /\
    no_colon attName /\
    ((encoded = attName /\ name = attName) \/
     (no_colon name /\
      (encoded = (attName ++ String colon name)%string \/
       exists rest,
         encoded = (attName ++ String colon (name ++ String colon rest))%string))).
Proof.
  unfold NameMap.
  destruct (Split_cases encoded) as (a & Ha & [[Hs Hsplit]|(rest & Hs & Hsplit)]).
  - exists a, a. rewrite Hsplit. simpl. auto.
  - destruct (Split_cases rest) as (b & Hb & [[Hr Hrs]|(rest' & Hr & Hrs)]).
    + exists a, b. rewrite Hsplit, Hrs. simpl.
      split; [reflexivity|]. split; [assumption|].
      right. split; [assumption|]. left. congruence.
    + exists a, b. rewrite Hsplit, Hrs. simpl.
      split; [reflexivity|]. split; [assumption|].
      right. split; [assumption|]. right. exists rest'. congruence.
Qed.

(** ** [sort.SliceStable] moves elements and nothing else

    Every step of the library is a [Swap], so whatever the closure answers,
    the sorted slice holds the elements of the original one. *)

Section SliceStable_facts.
Context {A : Type}.
Variable less : list A -> nat -> nat -> bool.

Lemma assign_Permutation (t : list A) (j : nat) (y h : A) :
  nth_error t j = Some y -> Permutation (y :: assign t j h) (h :: t).
Proof.
  revert j. induction t as [|a t IH]; intros [|j] Hj; simpl in *; try discriminate.
  - injection Hj as ->. apply perm_swap.
  - eapply perm_trans; [apply perm_swap|].
    eapply perm_trans; [apply perm_skip, IH, Hj|]. apply perm_swap.
Qed.

Lemma assign_assign_Permutation (d : list A) (i j : nat) (x y : A) :
  nth_error d i = Some x -> nth_error d j = Some y ->
  Permutation (assign (assign d i y) j x) d.
Proof.
  revert i j. induction d as [|h t IH]; intros [|i] [|j] Hi Hj;
    simpl in *; try discriminate.
  - injection Hi as ->. reflexivity.
  - injection Hi as ->. apply assign_Permutation, Hj.
  - injection Hj as ->. apply assign_Permutation, Hi.
  - apply perm_skip, IH; assumption.
Qed.

Lemma if_Permutation (c : bool) (x y d : list A) :
  Permutation x d -> Permutation y d -> Permutation (if c then x else y) d.
Proof. destruct c; auto. Qed.

Lemma Swap_Permutation (d : list A) (i j : nat) : Permutation (Swap d i j) d.
Proof.
  unfold Swap.
  destruct (nth_error d i) eqn:Hi; [|reflexivity].
  destruct (nth_error d j) eqn:Hj; [|reflexivity].
  apply assign_assign_Permutation; assumption.
Qed.

Lemma insertion_inner_Permutation (a j : nat) (d : list A) :
  Permutation (insertion_inner less a j d) d.
Proof.
  revert d. induction j as [|j IH]; intros d; simpl; [reflexivity|].
  destruct (_ && _); [|reflexivity].
  eapply perm_trans; [apply IH|apply Swap_Permutation].
Qed.

Lemma insertion_outer_Permutation (fuel a i b : nat) (d : list A) :
  Permutation (insertion_outer less fuel a i b d) d.
Proof.
  revert i d. induction fuel as [|fuel IH]; intros i d; simpl; [reflexivity|].
  destruct (i <? b); [|reflexivity].
  eapply perm_trans; [apply IH|apply insertion_inner_Permutation].
Qed.

Lemma insertionSort_Permutation (d : list A) (a b : nat) :
  Permutation (insertionSort less d a b) d.
Proof. apply insertion_outer_Permutation. Qed.

Lemma swapRange_Permutation (n a b : nat) (d : list A) :
  Permutation (swapRange d a b n) d.
Proof.
  revert a b d. induction n as [|n IH]; intros a b d; simpl; [reflexivity|].
  eapply perm_trans; [apply IH|apply Swap_Permutation].
Qed.

Lemma rotate_loop_Permutation (fuel : nat) (d : list A) (m i j : nat) :
  Permutation (rotate_loop fuel d m i j) d.
Proof.
  revert d i j. induction fuel as [|fuel IH]; intros d i j; simpl; [reflexivity|].
  destruct (i =? j); [apply swapRange_Permutation|].
  destruct (j <? i);
    (eapply perm_trans; [apply IH|apply swapRange_Permutation]).
Qed.

Lemma rotate_Permutation (d : list A) (a m b : nat) :
  Permutation (rotate d a m b) d.
Proof. apply rotate_loop_Permutation. Qed.

Lemma shift_up_Permutation (fuel : nat) (d : list A) (k i : nat) :
  Permutation (shift_up fuel d k i) d.
Proof.
  revert d k. induction fuel as [|fuel IH]; intros d k; simpl; [reflexivity|].
  destruct (k <? i - 1); [|reflexivity].
  eapply perm_trans; [apply IH|apply Swap_Permutation].
Qed.

Lemma shift_down_Permutation (k i : nat) (d : list A) :
  Permutation (shift_down d k i) d.
Proof.
  revert d. induction k as [|k IH]; intros d; simpl; [reflexivity|].
  destruct (i <? S k); [|reflexivity].
  eapply perm_trans; [apply IH|apply Swap_Permutation].
Qed.

Lemma symMerge_Permutation (fuel : nat) (d : list A) (a m b : nat) :
  Permutation (symMerge less fuel d a m b) d.
Proof.
  revert d a m b. induction fuel as [|fuel IH]; intros d a m b; [reflexivity|].
  cbn [symMerge].
  destruct (m - a =? 1); [apply shift_up_Permutation|].
  destruct (b - m =? 1); [apply shift_down_Permutation|].
  destruct (if (a + b) / 2 <? m then _ else _) as [start r]. cbv zeta.
  apply if_Permutation; [eapply perm_trans; [apply IH|]|];
    (apply if_Permutation; [eapply perm_trans; [apply IH|]|];
     (apply if_Permutation; [apply rotate_Permutation|reflexivity])).
Qed.

Lemma stable_blocks_Permutation (fuel : nat) (d : list A) (a b n blockSize : nat) :
  Permutation (snd (stable_blocks less fuel d a b n blockSize)) d.
Proof.
  revert d a b. induction fuel as [|fuel IH]; intros d a b; simpl; [reflexivity|].
  destruct (b <=? n); [|reflexivity].
  eapply perm_trans; [apply IH|apply insertionSort_Permutation].
Qed.

Lemma stable_pass_Permutation (fuel : nat) (d : list A) (a b n blockSize : nat) :
  Permutation (snd (stable_pass less fuel d a b n blockSize)) d.
Proof.
  revert d a b. induction fuel as [|fuel IH]; intros d a b; cbn [stable_pass];
    [reflexivity|].
  destruct (b <=? n); [|reflexivity].
  eapply perm_trans; [apply IH|apply symMerge_Permutation].
Qed.

Lemma stable_merge_Permutation (fuel : nat) (d : list A) (n blockSize : nat) :
  Permutation (stable_merge less fuel d n blockSize) d.
Proof.
  revert d blockSize. induction fuel as [|fuel IH]; intros d blockSize;
    cbn [stable_merge]; [reflexivity|].
  destruct (blockSize <? n); [|reflexivity].
  pose proof (stable_pass_Permutation n d 0 (2 * blockSize) n blockSize) as Hp.
  destruct (stable_pass less n d 0 (2 * blockSize) n blockSize) as [a d1].
  cbn [snd] in Hp.
  eapply perm_trans; [apply IH|].
  destruct (a + blockSize <? n); [|exact Hp].
  eapply perm_trans; [apply symMerge_Permutation|exact Hp].
Qed.

Lemma SliceStable_Permutation (d : list A) : Permutation (SliceStable less d) d.
Proof.
  unfold SliceStable, stable.
  pose proof (stable_blocks_Permutation (List.length d) d 0 20 (List.length d) 20) as Hb.
  destruct (stable_blocks less (List.length d) d 0 20 (List.length d) 20) as [a d1].
  cbn [snd] in Hb.
  eapply perm_trans; [apply stable_merge_Permutation|].
  eapply perm_trans; [apply insertionSort_Permutation|exact Hb].
Qed.

End SliceStable_facts.

(** ** The loop counters of the sort are large enough

    Each loop of the model stops on its Go guard before its counter runs
    out: from the value it is started with, a larger counter gives the same
    result. *)

Section SliceStable_counters.
Context {A : Type}.
Variable less : list A -> nat -> nat -> bool.

Lemma half_bounds (i j : nat) :
  2 * ((i + j) / 2) <= i + j /\ i + j < 2 * ((i + j) / 2) + 2.
Proof.
  pose proof (Nat.div_mod_eq (i + j) 2) as E.
  pose proof (Nat.mod_upper_bound (i + j) 2) as U. lia.
Qed.

Lemma insertion_outer_counter (f1 f2 a i b : nat) (d : list A) :
  b - i <= f1 -> b - i <= f2 ->
  insertion_outer less f1 a i b d = insertion_outer less f2 a i b d.
Proof.
  revert f2 i d. induction f1 as [|f1 IH]; intros [|f2] i d H1 H2; simpl;
    try reflexivity.
  - destruct (Nat.ltb_spec i b); [lia|reflexivity].
  - destruct (Nat.ltb_spec i b); [lia|reflexivity].
  - destruct (Nat.ltb_spec i b); [|reflexivity]. apply IH; lia.
Qed.

Lemma bsearch_counter (f1 f2 : nat) (test : nat -> bool) (i j : nat) :
  j - i <= f1 -> j - i <= f2 -> bsearch f1 test i j = bsearch f2 test i j.
Proof.
  revert f2 i j. induction f1 as [|f1 IH]; intros [|f2] i j H1 H2; cbn [bsearch];
    try reflexivity.
  - destruct (Nat.ltb_spec i j); [lia|reflexivity].
  - destruct (Nat.ltb_spec i j); [lia|reflexivity].
  - destruct (Nat.ltb_spec i j) as [Hij|]; [|reflexivity].
    destruct (half_bounds i j).
    destruct (test _); apply IH; lia.
Qed.

Lemma shift_up_counter (f1 f2 : nat) (d : list A) (k i : nat) :
  i - 1 - k <= f1 -> i - 1 - k <= f2 -> shift_up f1 d k i = shift_up f2 d k i.
Proof.
  revert f2 d k. induction f1 as [|f1 IH]; intros [|f2] d k H1 H2; simpl;
    try reflexivity.
  - destruct (Nat.ltb_spec k (i - 1)); [lia|reflexivity].
  - destruct (Nat.ltb_spec k (i - 1)); [lia|reflexivity].
  - destruct (Nat.ltb_spec k (i - 1)); [|reflexivity]. apply IH; lia.
Qed.

Lemma rotate_loop_counter (f1 f2 : nat) (d : list A) (m i j : nat) :
  0 < i -> 0 < j -> i + j <= f1 -> i + j <= f2 ->
  rotate_loop f1 d m i j = rotate_loop f2 d m i j.
Proof.
  revert f2 d i j. induction f1 as [|f1 IH]; intros [|f2] d i j Hi Hj H1 H2;
    try lia.
  simpl. destruct (Nat.eqb_spec i j); [reflexivity|].
  destruct (Nat.ltb_spec j i); apply IH; lia.
Qed.

Lemma symMerge_counter (f1 f2 : nat) (d : list A) (a m b : nat) :
  a < b -> b - a <= f1 -> b - a <= f2 ->
  symMerge less f1 d a m b = symMerge less f2 d a m b.
Proof.
  revert f2 d a m b. induction f1 as [|f1 IH]; intros [|f2] d a m b Hab H1 H2;
    try lia.
  cbn [symMerge].
  destruct (m - a =? 1); [reflexivity|].
  destruct (b - m =? 1); [reflexivity|].
  destruct (if (a + b) / 2 <? m then _ else _) as [start r]. cbv zeta.
  destruct (half_bounds a b) as [Hlo Hhi].
  set (st := bsearch b _ start r).
  set (d1 := if (st <? m) && _ then _ else d).
  assert (E : (if (a <? st) && (st <? (a + b) / 2)
               then symMerge less f1 d1 a st ((a + b) / 2) else d1) =
              (if (a <? st) && (st <? (a + b) / 2)
               then symMerge less f2 d1 a st ((a + b) / 2) else d1)).
  { destruct (Nat.ltb_spec a st); [|reflexivity].
    destruct (Nat.ltb_spec st ((a + b) / 2)); [|reflexivity].
    cbn [andb]. apply IH; lia. }
  rewrite E.
  destruct (Nat.ltb_spec ((a + b) / 2) ((a + b) / 2 + m - st)); [|reflexivity].
  destruct (Nat.ltb_spec ((a + b) / 2 + m - st) b); [|reflexivity].
  cbn [andb]. apply IH; lia.
Qed.

Lemma stable_blocks_counter (f1 f2 : nat) (d : list A) (a b n blockSize : nat) :
  0 < blockSize -> S n - b <= f1 -> S n - b <= f2 ->
  stable_blocks less f1 d a b n blockSize = stable_blocks less f2 d a b n blockSize.
Proof.
  intros Hpos. revert f2 d a b. induction f1 as [|f1 IH]; intros [|f2] d a b H1 H2;
    simpl; try reflexivity.
  - destruct (Nat.leb_spec b n); [lia|reflexivity].
  - destruct (Nat.leb_spec b n); [lia|reflexivity].
  - destruct (Nat.leb_spec b n); [|reflexivity]. apply IH; lia.
Qed.

Lemma stable_pass_counter (f1 f2 : nat) (d : list A) (a b n blockSize : nat) :
  0 < blockSize -> S n - b <= f1 -> S n - b <= f2 ->
  stable_pass less f1 d a b n blockSize = stable_pass less f2 d a b n blockSize.
Proof.
  intros Hpos. revert f2 d a b. induction f1 as [|f1 IH]; intros [|f2] d a b H1 H2;
    cbn [stable_pass]; try reflexivity.
  - destruct (Nat.leb_spec b n); [lia|reflexivity].
  - destruct (Nat.leb_spec b n); [lia|reflexivity].
  - destruct (Nat.leb_spec b n); [|reflexivity]. apply IH; lia.
Qed.

Lemma stable_merge_counter (f1 f2 : nat) (d : list A) (n blockSize : nat) :
  0 < blockSize -> n - blockSize <= f1 -> n - blockSize <= f2 ->
  stable_merge less f1 d n blockSize = stable_merge less f2 d n blockSize.
Proof.
  revert f2 d blockSize. induction f1 as [|f1 IH]; intros [|f2] d blockSize Hpos H1 H2;
    cbn [stable_merge]; try reflexivity.
  - destruct (Nat.ltb_spec blockSize n); [lia|reflexivity].
  - destruct (Nat.ltb_spec blockSize n); [lia|reflexivity].
  - destruct (Nat.ltb_spec blockSize n); [|reflexivity].
    destruct (stable_pass less n d 0 (2 * blockSize) n blockSize) as [a d1].
    apply IH; lia.
Qed.

(** A slice of fewer than 20 elements is one block: the sort is the
    insertion sort of the whole slice, and nothing is merged. *)
Lemma SliceStable_small (d : list A) :
  List.length d < 20 ->
  SliceStable less d = insertionSort less d 0 (List.length d).
Proof.
  intros Hn. unfold SliceStable, stable.
  destruct (List.length d) as [|n] eqn:E; [reflexivity|].
  cbn [stable_blocks stable_merge].
  destruct (Nat.leb_spec 20 (S n)); [lia|].
  destruct (Nat.ltb_spec 20 (S n)); [lia|reflexivity].
Qed.

End SliceStable_counters.

(** ** The loops that build the batches *)

Lemma assign_middle {A : Type} (pre post : list A) (y x : A) :
  assign (pre ++ y :: post) (List.length pre) x = pre ++ x :: post.
Proof. induction pre as [|h pre IH]; simpl; [reflexivity|]. now rewrite IH. Qed.

Lemma store_middle {A : Type} (pre post : list A) (y x : A) :
  store (pre ++ y :: post) (List.length pre) x = Ret (pre ++ x :: post).
Proof.
  unfold store. rewrite assign_middle.
  replace (List.length pre <? List.length (pre ++ y :: post)) with true; [reflexivity|].
  symmetry. apply Nat.ltb_lt. rewrite length_app. simpl. lia.
Qed.

Lemma store_next (pre : ExpressionSet) (n : nat) (x : option Expression) :
  store (pre ++ make (S n)) (List.length pre) x = Ret ((pre ++ [x]) ++ make n).
Proof.
  unfold make. simpl. rewrite store_middle, <- app_assoc. reflexivity.
Qed.

Lemma length_snoc {A : Type} (pre : list A) (x : A) :
  S (List.length pre) = List.length (pre ++ [x]).
Proof. rewrite length_app. simpl. lia. Qed.

(** After a store at index [length pre], the next index is the length of
    the filled prefix. *)
Ltac next_index :=
  match goal with
  | |- context [(?pre ++ [?x]) ++ make _] => rewrite (length_snoc pre x)
  end.

Lemma range_Types_fills (ts : list UserTypeI) (pre : ExpressionSet) :
  range_Types ts (List.length pre) (pre ++ make (List.length ts)) =
  Ret (pre ++ map (fun t => Some (ExprAttribute (Attribute t))) ts).
Proof.
  revert pre. induction ts as [|t ts IH]; intros pre.
  - simpl. unfold make. simpl. reflexivity.
  - cbn [range_Types List.length map]. rewrite store_next. cbn [bindGo].
    next_index; rewrite IH, <- app_assoc. reflexivity.
Qed.

Lemma range_ResultTypes_fills (ts : list UserTypeI) (pre : ExpressionSet) :
  range_ResultTypes ts (List.length pre) (pre ++ make (List.length ts)) =
  if forallb isResultTypeExpr ts
  then Ret (pre ++ flat_map (fun mt => match mt with
                                       | IsResultTypeExpr rt => [Some (ExprResultType rt)]
                                       | IsUserTypeExpr _ => []
                                       end) ts)
  else Panic.
Proof.
  revert pre. induction ts as [|t ts IH]; intros pre.
  - simpl. unfold make. simpl. reflexivity.
  - cbn [range_ResultTypes List.length flat_map forallb].
    destruct t as [u|rt]; cbn [assertResultTypeExpr bindGo isResultTypeExpr andb];
      [reflexivity|].
    rewrite store_next. cbn [bindGo].
    next_index; rewrite IH. destruct (forallb _ ts); [|reflexivity].
    rewrite <- app_assoc. reflexivity.
Qed.

Lemma range_Methods_appends (ms : list MethodExpr) (methods : ExpressionSet) :
  range_Methods ms methods = methods ++ nodes ExprMethod ms.
Proof.
  revert methods. induction ms as [|e ms IH]; intros methods; simpl.
  - now rewrite app_nil_r.
  - rewrite IH. unfold append. rewrite <- app_assoc. reflexivity.
Qed.

Lemma range_Services_fills (ss : list ServiceExpr) (pre methods : ExpressionSet) :
  range_Services ss (List.length pre) (pre ++ make (List.length ss)) methods =
  Ret (pre ++ nodes ExprService ss,
       methods ++ flat_map (fun s => nodes ExprMethod (Methods s)) ss).
Proof.
  revert pre methods. induction ss as [|s ss IH]; intros pre methods.
  - simpl. unfold make. simpl. now rewrite !app_nil_r.
  - cbn [range_Services List.length flat_map nodes map]. rewrite store_next. cbn [bindGo].
    next_index; rewrite IH, range_Methods_appends, <- !app_assoc. reflexivity.
Qed.

Lemma range_HTTPEndpoints_appends (es : list HTTPEndpointExpr) (endpoints : ExpressionSet) :
  range_HTTPEndpoints es endpoints = endpoints ++ nodes ExprHTTPEndpoint es.
Proof.
  revert endpoints. induction es as [|e es IH]; intros endpoints; simpl.
  - now rewrite app_nil_r.
  - rewrite IH. unfold append. rewrite <- app_assoc. reflexivity.
Qed.

Lemma range_FileServers_appends (fs : list HTTPFileServerExpr) (servers : ExpressionSet) :
  range_FileServers fs servers = servers ++ nodes ExprHTTPFileServer fs.
Proof.
  revert servers. induction fs as [|e fs IH]; intros servers; simpl.
  - now rewrite app_nil_r.
  - rewrite IH. unfold append. rewrite <- app_assoc. reflexivity.
Qed.

Lemma range_HTTPServices_fills (svcs : list HTTPServiceExpr)
      (pre endpoints servers : ExpressionSet) :
  range_HTTPServices svcs (List.length pre) (pre ++ make (List.length svcs))
                     endpoints servers =
  Ret (pre ++ nodes ExprHTTPService svcs,
       endpoints ++ HTTPEndpoints_stage svcs,
       servers ++ FileServers_stage svcs).
Proof.
  revert pre endpoints servers.
  induction svcs as [|svc svcs IH]; intros pre endpoints servers.
  - simpl. unfold make. simpl. now rewrite !app_nil_r.
  - unfold HTTPEndpoints_stage, FileServers_stage in *.
    cbn [range_HTTPServices List.length flat_map nodes map].
    rewrite store_next. cbn [bindGo].
    next_index; rewrite IH, range_HTTPEndpoints_appends, range_FileServers_appends,
      <- !app_assoc.
    reflexivity.
Qed.

Lemma range_GRPCEndpoints_app (es1 es2 : list GRPCEndpointExpr)
      (endpoints grpcms : ExpressionSet) :
  range_GRPCEndpoints (es1 ++ es2) endpoints grpcms =
  range_GRPCEndpoints es2 endpoints (range_GRPCEndpoints es1 endpoints grpcms).
Proof.
  revert grpcms. induction es1 as [|e es1 IH]; intros grpcms; simpl; [reflexivity|].
  apply IH.
Qed.

Lemma range_GRPCServices_fills (svcs : list GRPCServiceExpr)
      (pre endpoints grpcms : ExpressionSet) :
  range_GRPCServices svcs (List.length pre) (pre ++ make (List.length svcs))
                     endpoints grpcms =
  Ret (pre ++ nodes ExprGRPCService svcs,
       range_GRPCEndpoints (flat_map GRPCEndpoints svcs) endpoints grpcms).
Proof.
  revert pre grpcms. induction svcs as [|svc svcs IH]; intros pre grpcms.
  - simpl. unfold make. simpl. now rewrite !app_nil_r.
  - cbn [range_GRPCServices List.length flat_map nodes map].
    rewrite store_next. cbn [bindGo].
    next_index; rewrite IH, range_GRPCEndpoints_app, <- app_assoc. reflexivity.
Qed.

(** ** A walk, stage by stage *)

Lemma call_present {St : Type} (walk : SetWalker St) (set : ExpressionSet) (w : World St) :
  call walk set w = Done tt (present walk w set).
Proof. unfold call, present. destruct (walk set (callback w)); reflexivity. Qed.

Lemma with_API_same (r : RootExpr) (a : APIExpr) :
  API r = Some a -> with_API r a = r.
Proof. destruct r; simpl; intros ->; reflexivity. Qed.

Lemma SliceStable_length {A : Type} (less : list A -> nat -> nat -> bool) (d : list A) :
  List.length (SliceStable less d) = List.length d.
Proof. apply Permutation_length, SliceStable_Permutation. Qed.

Lemma range_Types_make (ts : list UserTypeI) :
  range_Types ts 0 (make (List.length ts)) =
  Ret (map (fun t => Some (ExprAttribute (Attribute t))) ts).
Proof. exact (range_Types_fills ts []). Qed.

Lemma range_ResultTypes_make (ts : list UserTypeI) :
  range_ResultTypes ts 0 (make (List.length ts)) =
  if forallb isResultTypeExpr ts
  then Ret (flat_map (fun mt => match mt with
                                | IsResultTypeExpr rt => [Some (ExprResultType rt)]
                                | IsUserTypeExpr _ => []
                                end) ts)
  else Panic.
Proof. exact (range_ResultTypes_fills ts []). Qed.

Lemma range_Services_make (ss : list ServiceExpr) :
  range_Services ss 0 (make (List.length ss)) [] =
  Ret (nodes ExprService ss, flat_map (fun s => nodes ExprMethod (Methods s)) ss).
Proof. exact (range_Services_fills ss [] []). Qed.

Lemma range_HTTPServices_make (svcs : list HTTPServiceExpr) (n : nat) :
  n = List.length svcs ->
  range_HTTPServices svcs 0 (make n) [] [] =
  Ret (nodes ExprHTTPService svcs, HTTPEndpoints_stage svcs, FileServers_stage svcs).
Proof. intros ->. exact (range_HTTPServices_fills svcs [] [] []). Qed.

Lemma range_GRPCServices_make (svcs : list GRPCServiceExpr) (n : nat)
      (endpoints : ExpressionSet) :
  n = List.length svcs ->
  range_GRPCServices svcs 0 (make n) endpoints [] =
  Ret (nodes ExprGRPCService svcs,
       range_GRPCEndpoints (flat_map GRPCEndpoints svcs) endpoints []).
Proof. intros ->. exact (range_GRPCServices_fills svcs [] endpoints []). Qed.

Lemma WalkSets_runs {St : Type} (walk : SetWalker St) (r : RootExpr) (s : St) :
  WalkSets walk (start r s) =
  if forallb isResultTypeExpr (ResultTypes r)
  then Done tt (with_root (present_all walk (stages r) (start r s)) (walked r))
  else Panicked (with_root (present_all walk [[Some (ExprAPI (API_of r))]; Types_stage r]
                                        (start r s))
                           (with_API r (API_of r))).
Proof.
  unfold WalkSets, derefAPI. unfold bind, getRoot, setAPI, ret, lift, start.
  cbn [root callback presented].
  unfold stages, walked, last_stage, sorted_HTTP, sorted_GRPC, Types_stage,
    ResultTypes_stage, Services_stage, Methods_stage, API_of.
  destruct (forallb isResultTypeExpr (ResultTypes r)) eqn:Hrt;
    destruct (API r) as [a|] eqn:HAPI; cbn [API with_API root deref];
    rewrite ?HAPI; cbn [deref];
    rewrite call_present; cbn [root present with_API Types];
    rewrite range_Types_make;
    rewrite call_present; cbn [root present with_API ResultTypes];
    rewrite range_ResultTypes_make, Hrt.
  1, 2: rewrite call_present; cbn [root present with_API Services];
    rewrite range_Services_make; cbn [fst snd];
    rewrite !call_present; cbn [root present with_API API]; rewrite ?HAPI; cbn [deref];
    cbn [HTTP_Services HTTP with_HTTP_Services];
    rewrite (range_HTTPServices_make _ _ (eq_sym (SliceStable_length _ _)));
    rewrite !call_present; cbn [root present with_API API deref];
    cbn [GRPC_Services GRPC with_GRPC_Services with_HTTP_Services];
    rewrite (range_GRPCServices_make _ _ _ (eq_sym (SliceStable_length _ _)));
    cbn [fst snd]; rewrite !call_present; reflexivity.
  - rewrite (with_API_same r a HAPI). reflexivity.
  - reflexivity.
Qed.

Lemma root_present_all {St : Type} (walk : SetWalker St) (sets : list ExpressionSet)
      (w : World St) :
  root (present_all walk sets w) = root w.
Proof.
  revert w. induction sets as [|set sets IH]; intros w; [reflexivity|].
  unfold present_all in *. simpl. now rewrite IH.
Qed.

Lemma batches_present_all {St : Type} (walk : SetWalker St) (sets : list ExpressionSet)
      (w : World St) :
  map fst (presented (present_all walk sets w)) = map fst (presented w) ++ sets.
Proof.
  revert w. induction sets as [|set sets IH]; intros w.
  - simpl. now rewrite app_nil_r.
  - unfold present_all in *. cbn [fold_left]. rewrite IH.
    cbn [present presented]. rewrite map_app, <- app_assoc. reflexivity.
Qed.

(** The batches of a walk depend on the registry alone. *)
Lemma batches_WalkSets {St : Type} (walk : SetWalker St) (r : RootExpr) (s : St) :
  batches (WalkSets walk (start r s)) =
  if forallb isResultTypeExpr (ResultTypes r)
  then stages r
  else [[Some (ExprAPI (API_of r))]; Types_stage r].
Proof.
  unfold batches. rewrite WalkSets_runs.
  destruct (forallb isResultTypeExpr (ResultTypes r));
    cbn [final with_root presented]; rewrite batches_present_all; reflexivity.
Qed.

(** The registry a walk leaves behind. *)
Lemma root_WalkSets {St : Type} (walk : SetWalker St) (r : RootExpr) (s : St) :
  root (final (WalkSets walk (start r s))) =
  if forallb isResultTypeExpr (ResultTypes r)
  then walked r
  else with_API r (API_of r).
Proof.
  rewrite WalkSets_runs.
  destruct (forallb isResultTypeExpr (ResultTypes r)); reflexivity.
Qed.

(** ** Batches without an API node *)

Lemma no_API_node_nil : no_API_node [].
Proof. intros a H. exact H. Qed.

Lemma no_API_node_app (l1 l2 : ExpressionSet) :
  no_API_node l1 -> no_API_node l2 -> no_API_node (l1 ++ l2).
Proof.
  intros H1 H2 a H. apply in_app_or in H. destruct H; [eapply H1|eapply H2]; eassumption.
Qed.

Lemma no_API_node_nodes {A : Type} (tag : A -> Expression) (l : list A) :
  (forall x a, tag x <> ExprAPI a) -> no_API_node (nodes tag l).
Proof.
  intros Htag a H. unfold nodes in H. apply in_map_iff in H.
  destruct H as (x & Hx & _). injection Hx as Hx. exact (Htag x a Hx).
Qed.

Lemma no_API_node_flat_map {A : Type} (f : A -> ExpressionSet) (l : list A) :
  (forall x, no_API_node (f x)) -> no_API_node (flat_map f l).
Proof.
  intros Hf a H. apply in_flat_map in H. destruct H as (x & _ & Hx).
  exact (Hf x a Hx).
Qed.

Lemma no_API_node_range_GRPCEndpoints (es : list GRPCEndpointExpr)
      (endpoints grpcms : ExpressionSet) :
  no_API_node endpoints -> no_API_node grpcms ->
  no_API_node (range_GRPCEndpoints es endpoints grpcms).
Proof.
  intros He. revert grpcms. induction es as [|e es IH]; intros grpcms Hg; simpl.
  - exact Hg.
  - apply IH. unfold append. apply no_API_node_app; [exact He|].
    intros a [H|[]]. discriminate H.
Qed.

Lemma no_API_node_later_stages (r : RootExpr) :
  Forall no_API_node (tl (stages r)).
Proof.
  assert (HE : forall svcs, no_API_node (HTTPEndpoints_stage svcs)).
  { intros svcs. apply no_API_node_flat_map. intros x.
    apply no_API_node_nodes. discriminate. }
  unfold stages. cbn [tl].
  repeat apply Forall_cons; try apply Forall_nil.
  - unfold Types_stage. intros a H. apply in_map_iff in H.
    destruct H as (x & Hx & _). discriminate Hx.
  - unfold ResultTypes_stage. apply no_API_node_flat_map.
    intros [u|rt] a H; [exact H|]. destruct H as [H|[]]. discriminate H.
  - apply no_API_node_nodes. discriminate.
  - apply no_API_node_flat_map. intros x. apply no_API_node_nodes. discriminate.
  - apply no_API_node_nodes. discriminate.
  - apply HE.
  - apply no_API_node_flat_map. intros x. apply no_API_node_nodes. discriminate.
  - apply no_API_node_nodes. discriminate.
  - apply no_API_node_range_GRPCEndpoints; [apply HE|apply no_API_node_nil].
Qed.

(** ** The stages of [WalkSets] *)

(** C6. For every registry and callback, the services batch is presented,
    whole, as the batch just before the methods batch, and the methods batch
    is the concatenation of the services' method sequences, services taken
    in registry order. This is so whenever the walk gets past the result
    types, that is, when every result type has the dynamic type that line 90
    asserts; otherwise the walk panics there and presents neither batch. *)
Theorem methods_stage_follows_services_stage
        {St : Type} (walk : SetWalker St) (r : RootExpr) (s : St) :
  let bs := batches (WalkSets walk (start r s)) in
  (forallb isResultTypeExpr (ResultTypes r) = true ->
   nth_error bs 3 = Some (map (fun x => Some (ExprService x)) (Services r)) /\
   nth_error bs 4 =
   Some (flat_map (fun x => map (fun m => Some (ExprMethod m)) (Methods x))
                  (Services r))) /\
  (forallb isResultTypeExpr (ResultTypes r) = false ->
   nth_error bs 3 = None /\ nth_error bs 4 = None).
Proof.
  cbv zeta. rewrite batches_WalkSets.
  split; intros H; rewrite H; split; reflexivity.
Qed.

Lemma methods_stage_follows_services_stage_witness :
  (forallb isResultTypeExpr (ResultTypes (sample_root None)) = true /\
   nth_error (batches (WalkSets always_fails (start (sample_root None) tt))) 4 =
   Some [Some (ExprMethod {| MethodName := "M1" |});
         Some (ExprMethod {| MethodName := "M2" |});
         Some (ExprMethod {| MethodName := "M3" |})]) /\
  (forallb isResultTypeExpr (ResultTypes mistyped_root) = false /\
   nth_error (batches (WalkSets always_fails (start mistyped_root tt))) 4 = None).
Proof.
  split; (split; [reflexivity|]).
  - exact (proj2 (proj1 (methods_stage_follows_services_stage
                           always_fails (sample_root None) tt) eq_refl)).
  - exact (proj2 (proj2 (methods_stage_follows_services_stage
                           always_fails mistyped_root tt) eq_refl)).
Defined.

(** C7. For every registry without an API node, a walk first creates the
    default API node, and the first batch handed to the callback holds that
    node and nothing else; no later batch holds an API node; and when the
    walk ends, by return or by panic, the registry has an API node, the
    default one. *)
Theorem default_API_is_presented_first
        {St : Type} (walk : SetWalker St) (r : RootExpr) (s : St) :
  API r = None ->
  let o := WalkSets walk (start r s) in
  (exists rest,
      batches o = [Some (ExprAPI (NewAPIExpr "API"))] :: rest /\
      Forall no_API_node rest) /\
  API (root (final o)) = Some (NewAPIExpr "API").
Proof.
  intros HAPI. cbv zeta. rewrite batches_WalkSets, root_WalkSets.
  pose proof (no_API_node_later_stages r) as Hlater.
  unfold walked, sorted_HTTP, sorted_GRPC, stages in *. unfold API_of in *.
  rewrite HAPI in *. cbn [tl] in Hlater.
  destruct (forallb isResultTypeExpr (ResultTypes r)); split.
  - eexists. split; [reflexivity|exact Hlater].
  - reflexivity.
  - eexists. split; [reflexivity|].
    apply Forall_cons; [|apply Forall_nil].
    apply (Forall_inv Hlater).
  - reflexivity.
Qed.

Lemma default_API_is_presented_first_witness :
  API empty_root = None /\
  API (root (final (WalkSets never_fails (start empty_root tt)))) =
  Some (NewAPIExpr "API").
Proof.
  split; [reflexivity|].
  exact (proj2 (default_API_is_presented_first never_fails empty_root tt eq_refl)).
Defined.

(** C4, as the design document states it, fails: a callback that reports a
    failure on the first batch is still handed the nine batches that follow. *)
Lemma fail_fast_counterexample : ~ fail_fast always_fails empty_root tt.
Proof.
  intros H.
  specialize (H 0 [Some (ExprAPI (NewAPIExpr "API"))] eq_refl).
  vm_compute in H. discriminate H.
Qed.

(** C4, amended. [WalkSets] never looks at what the callback reports: for
    every registry the batches presented are the same for every callback and
    every state it starts in, whatever failures it reports; and when every
    result type has the dynamic type that line 90 asserts, all ten stages
    are presented, also after a reported failure. *)
Theorem walk_ignores_callback_failures
        {St : Type} (walk : SetWalker St) (r : RootExpr) (s : St) :
  batches (WalkSets walk (start r s)) =
  batches (WalkSets never_fails (start r tt)) /\
  (forallb isResultTypeExpr (ResultTypes r) = true ->
   List.length (presented (final (WalkSets walk (start r s)))) = 10).
Proof.
  split.
  - rewrite !batches_WalkSets. reflexivity.
  - intros H.
    rewrite <- (length_map fst). fold (batches (WalkSets walk (start r s))).
    rewrite batches_WalkSets, H. reflexivity.
Qed.

Lemma walk_ignores_callback_failures_witness :
  forallb isResultTypeExpr (ResultTypes (sample_root None)) = true /\
  List.length (presented (final (WalkSets always_fails (start (sample_root None) tt))))
  = 10.
Proof.
  split; [reflexivity|].
  exact (proj2 (walk_ignores_callback_failures always_fails (sample_root None) tt)
               eq_refl).
Defined.

(** C2, as the design document states it, fails: the walk sorts the stored
    HTTP services in place, so a registry that holds the child [hB] before
    its parent [hA] holds them in the other order after the walk. *)
Lemma registry_unchanged_counterexample :
  ~ registry_unchanged never_fails (sample_root (Some (sample_api [hB; hA] []))) tt.
Proof.
  unfold registry_unchanged. intros H.
  apply (f_equal (fun r => option_map (fun a => map HTTPServiceExpr_Name
                                                    (HTTP_Services (HTTP a)))
                                      (API r))) in H.
  vm_compute in H. discriminate H.
Qed.

(** C2, amended. For every registry and every callback, failing or not, a
    walk leaves every collection of the registry with the same elements,
    and every collection but two in the same order: the services, errors,
    user types, result types, generated types, conversions, creations,
    schemes and meta are unchanged, the API node (the default one when there
    was none) keeps its name and servers, and its HTTP and gRPC service
    sequences, which the walk sorts in place, are permutations of the
    original ones. *)
Theorem walk_keeps_the_registry_contents
        {St : Type} (walk : SetWalker St) (r : RootExpr) (s : St) :
  let r' := root (final (WalkSets walk (start r s))) in
  Services r' = Services r /\
  Errors r' = Errors r /\
  Types r' = Types r /\
  ResultTypes r' = ResultTypes r /\
  GeneratedTypes r' = GeneratedTypes r /\
  Conversions r' = Conversions r /\
  Creations r' = Creations r /\
  Schemes r' = Schemes r /\
  Meta r' = Meta r /\
  exists api',
    API r' = Some api' /\
    APIName api' = APIName (API_of r) /\
    Servers api' = Servers (API_of r) /\
    Permutation (HTTP_Services (HTTP api')) (HTTP_Services (HTTP (API_of r))) /\
    Permutation (GRPC_Services (GRPC api')) (GRPC_Services (GRPC (API_of r))).
Proof.
  cbv zeta. rewrite root_WalkSets.
  destruct (forallb isResultTypeExpr (ResultTypes r)).
  - repeat (split; [reflexivity|]).
    eexists. split; [reflexivity|]. split; [reflexivity|]. split; [reflexivity|].
    split; apply SliceStable_Permutation.
  - repeat (split; [reflexivity|]).
    eexists. split; [reflexivity|]. split; [reflexivity|]. split; [reflexivity|].
    split; reflexivity.
Qed.

(** The last [append] of lines 140-142 is the one that counts: whatever was
    accumulated before, the batch is the HTTP endpoints followed by the last
    gRPC endpoint. *)
Lemma range_GRPCEndpoints_last (es : list GRPCEndpointExpr) (e : GRPCEndpointExpr)
      (endpoints grpcms : ExpressionSet) :
  range_GRPCEndpoints (es ++ [e]) endpoints grpcms =
  endpoints ++ [Some (ExprGRPCEndpoint e)].
Proof. rewrite range_GRPCEndpoints_app. reflexivity. Qed.

(** C1, on the code. With one HTTP service holding the endpoint [GET /a] and
    one gRPC service holding the endpoints [A.Get] and [A.List], the batch
    of the gRPC endpoints stage is the HTTP endpoint followed by [A.List]:
    it holds an HTTP endpoint node and misses [A.Get], where the design
    document asks for the two gRPC endpoints. *)
Theorem grpc_endpoints_stage_on_sample :
  nth_error
    (batches (WalkSets never_fails
                       (start (sample_root (Some (sample_api [hA] [gA]))) tt))) 9 =
  Some [Some (ExprHTTPEndpoint {| HTTPEndpoint_Method := "GET /a" |});
        Some (ExprGRPCEndpoint {| GRPCEndpoint_Method := "A.List" |})] /\
  GRPCEndpoints_stage [gA] =
  [Some (ExprGRPCEndpoint {| GRPCEndpoint_Method := "A.Get" |});
   Some (ExprGRPCEndpoint {| GRPCEndpoint_Method := "A.List" |})].
Proof. split; vm_compute; reflexivity. Qed.

(** What the sort of line 108 achieves. Two neighbours are put parent
    first; but a child separated from its parent by a service related to
    neither is never compared with it, and stays ahead. *)
Lemma child_then_parent_is_swapped (a b : HTTPServiceExpr) :
  HTTPService_ParentName b = HTTPServiceExpr_Name a ->
  SliceStable HTTP_less [b; a] = [a; b].
Proof.
  intros H. rewrite SliceStable_small by (simpl; lia).
  cbn -[String.eqb]. rewrite H, String.eqb_refl. reflexivity.
Qed.

Lemma parent_then_child_stays (a b : HTTPServiceExpr) :
  HTTPService_ParentName a <> HTTPServiceExpr_Name b ->
  SliceStable HTTP_less [a; b] = [a; b].
Proof.
  intros H. rewrite SliceStable_small by (simpl; lia).
  apply String.eqb_neq in H. cbn -[String.eqb]. rewrite H. reflexivity.
Qed.

Lemma child_stays_ahead_of_a_stranger (b x a : HTTPServiceExpr) :
  HTTPService_ParentName b <> HTTPServiceExpr_Name x ->
  HTTPService_ParentName x <> HTTPServiceExpr_Name a ->
  SliceStable HTTP_less [b; x; a] = [b; x; a].
Proof.
  intros Hbx Hxa. rewrite SliceStable_small by (simpl; lia).
  apply String.eqb_neq in Hbx, Hxa. cbn -[String.eqb]. rewrite Hbx.
  cbn -[String.eqb]. rewrite Hxa. reflexivity.
Qed.

(** C5, on the code. With the HTTP services stored as child [hB], unrelated
    [hX], parent [hA], the sort compares neighbours only and moves nothing:
    the HTTP services stage presents the child before its parent, and the
    parent nowhere before the child. The same happens to the gRPC services
    stored as [gB], [gX], [gA]. *)
Theorem parent_after_child_on_sample :
  let bs := batches (WalkSets never_fails
                       (start (sample_root
                                 (Some (sample_api [hB; hX; hA] [gB; gX; gA]))) tt)) in
  nth_error bs 5 = Some (nodes ExprHTTPService [hB; hX; hA]) /\
  ~ placed_before (ExprHTTPService hA) (ExprHTTPService hB)
      (nodes ExprHTTPService [hB; hX; hA]) /\
  nth_error bs 8 = Some (nodes ExprGRPCService [gB; gX; gA]) /\
  ~ placed_before (ExprGRPCService gA) (ExprGRPCService gB)
      (nodes ExprGRPCService [gB; gX; gA]).
Proof.
  cbv zeta. repeat split; try (vm_compute; reflexivity).
  - intros (l1 & l2 & l3 & H).
    destruct l1 as [|x1 [|x2 [|x3 [|x4 l1]]]]; cbv in H; try discriminate H.
    injection H as _ _ H. destruct l2; discriminate H.
  - intros (l1 & l2 & l3 & H).
    destruct l1 as [|x1 [|x2 [|x3 [|x4 l1]]]]; cbv in H; try discriminate H.
    injection H as _ _ H. destruct l2; discriminate H.
Qed.

(** ** [HTTPSchemes] *)

Lemma range_Servers_keeps (url_Parse : string -> option URLValue)
      (servers : list ServerExpr) (schemes : list string) :
  range_Servers url_Parse servers schemes = Panic \/
  range_Servers url_Parse servers schemes = Ret schemes.
Proof.
  induction servers as [|s servers IH]; simpl; [right; reflexivity|].
  destruct (url_Parse (URL s)); [exact IH|left; reflexivity].
Qed.

(** Whatever the servers and however their URLs parse, [HTTPSchemes] panics
    or returns no scheme. *)
Lemma HTTPSchemes_collects_nothing (url_Parse : string -> option URLValue)
      (r : RootExpr) :
  HTTPSchemes url_Parse r = Panic \/ HTTPSchemes url_Parse r = Ret [].
Proof.
  unfold HTTPSchemes. destruct (API r) as [api|]; simpl; [|left; reflexivity].
  destruct (range_Servers_keeps url_Parse (Servers api) []) as [H|H]; rewrite H;
    [left|right]; reflexivity.
Qed.

(** C3, on the code. For a registry whose only server has the URL
    [http://localhost:8080], which parses with the scheme [http],
    [HTTPSchemes] returns no scheme, where the design document asks for the
    one scheme declared. *)
Theorem HTTPSchemes_on_sample :
  HTTPSchemes sample_Parse (sample_root (Some (sample_api [] []))) = Ret [] /\
  sort_Strings (declared_schemes sample_Parse (Servers (sample_api [] [])) []) =
  ["http"].
Proof. split; vm_compute; reflexivity. Qed.

(** ** [Validate] *)

(** C8. For every registry, [Validate] returns a composite without failure
    when the API node is set, and a composite with exactly one failure, on
    the root and with the message of the missing API declaration, when it
    is not; the composite is an error for its callers exactly in the second
    case. *)
Theorem Validate_checks_the_API (r : RootExpr) :
  match API r with
  | Some _ =>
      Validate r = [] /\ List.length (Validate r) = 0 /\
      is_failure (Validate r) = false
  | None =>
      Validate r = [{| Offender := ExprRoot r;
                       Message := "Missing API declaration" |}] /\
      List.length (Validate r) = 1 /\
      is_failure (Validate r) = true
  end.
Proof.
  unfold Validate. destruct (API r); repeat split; reflexivity.
Qed.

(** ** [UserType] *)

Lemma range_named_first (ts : list UserTypeI) (name : string) :
  match range_named ts name with
  | Some t =>
      exists before after,
        ts = before ++ t :: after /\ Name t = name /\
        Forall (fun u => Name u <> name) before
  | None => Forall (fun u => Name u <> name) ts
  end.
Proof.
  induction ts as [|t ts IH]; simpl; [apply Forall_nil|].
  destruct (String.eqb_spec (Name t) name) as [Heq|Hneq].
  - exists [], ts. split; [reflexivity|]. split; [exact Heq|apply Forall_nil].
  - destruct (range_named ts name) as [t'|].
    + destruct IH as (before & after & -> & Hname & Hbefore).
      exists (t :: before), after. split; [reflexivity|]. split; [exact Hname|].
      apply Forall_cons; assumption.
    + apply Forall_cons; assumption.
Qed.

(** C9. For every registry and name, [UserType] returns the first node
    named so in the user types followed by the result types: every node
    before the one returned, in that order, has another name. It returns
    nil exactly when no node of either collection has the name. *)
Theorem UserType_returns_first_match (r : RootExpr) (name : string) :
  match UserType r name with
  | Some t =>
      exists before after,
        Types r ++ ResultTypes r = before ++ t :: after /\
        Name t = name /\
        Forall (fun u => Name u <> name) before
  | None => Forall (fun u => Name u <> name) (Types r ++ ResultTypes r)
  end.
Proof.
  unfold UserType.
  pose proof (range_named_first (Types r) name) as HT.
  pose proof (range_named_first (ResultTypes r) name) as HR.
  destruct (range_named (Types r) name) as [t|].
  - destruct HT as (before & after & HT & Hname & Hbefore).
    exists before, (after ++ ResultTypes r). rewrite HT, <- app_assoc.
    split; [reflexivity|]. split; assumption.
  - destruct (range_named (ResultTypes r) name) as [t|].
    + destruct HR as (before & after & HR & Hname & Hbefore).
      exists (Types r ++ before), after. rewrite HR, <- app_assoc.
      split; [reflexivity|]. split; [exact Hname|].
      apply Forall_app. split; assumption.
    + apply Forall_app. split; assumption.
Qed.

(** * Further properties *)

(** ** [NameMap], from the encoding to the pair *)

Lemma Split_no_colon (s : string) : no_colon s -> Split s colon = [s].
Proof.
  induction s as [|c s IH]; intros H; [reflexivity|].
  destruct H as [Hc Hs]. cbn [Split].
  apply Ascii.eqb_neq in Hc. rewrite Hc, (IH Hs). reflexivity.
Qed.

Lemma Split_before_colon (a rest : string) :
  no_colon a ->
  Split (a ++ String colon rest)%string colon = a :: Split rest colon.
Proof.
  induction a as [|c a IH]; intros H.
  - cbn [String.append Split]. rewrite Ascii.eqb_refl. reflexivity.
  - destruct H as [Hc Ha]. cbn [String.append Split].
    apply Ascii.eqb_neq in Hc. rewrite Hc, (IH Ha). reflexivity.
Qed.

(** X1. An attribute name and an element name without colon, joined by a
    colon, decode to that pair; an attribute name alone decodes to the pair
    of that name with itself. *)
Theorem NameMap_round_trip (attName name : string) :
  no_colon attName -> no_colon name ->
  NameMap (attName ++ String colon name)%string = Ret (attName, name) /\
  NameMap attName = Ret (attName, attName).
Proof.
  intros Ha Hn. unfold NameMap. split.
  - rewrite (Split_before_colon attName name Ha), (Split_no_colon name Hn).
    reflexivity.
  - rewrite (Split_no_colon attName Ha). reflexivity.
Qed.

(** Closed strings without colon. *)
Ltac colon_free := cbv; repeat split; discriminate.

Lemma NameMap_round_trip_witness :
  NameMap "id:X-Request-Id" = Ret ("id", "X-Request-Id") /\
  NameMap "id" = Ret ("id", "id").
Proof.
  apply (NameMap_round_trip "id" "X-Request-Id"); colon_free.
Defined.

(** X2. Whatever follows a second colon is dropped: with an attribute name
    and an element name without colon, the encoding extended by a colon and
    any text decodes to the same pair. *)
Theorem NameMap_drops_further_segments (attName name rest : string) :
  no_colon attName -> no_colon name ->
  NameMap (attName ++ String colon (name ++ String colon rest))%string =
  Ret (attName, name).
Proof.
  intros Ha Hn. unfold NameMap.
  rewrite (Split_before_colon attName _ Ha), (Split_before_colon name rest Hn).
  reflexivity.
Qed.

Lemma NameMap_drops_further_segments_witness :
  NameMap "id:X-Request-Id:ignored:too" = Ret ("id", "X-Request-Id").
Proof.
  apply (NameMap_drops_further_segments "id" "X-Request-Id" "ignored:too");
    colon_free.
Defined.

(** ** The lookups by name *)

Lemma range_named_find (ts : list UserTypeI) (name : string) :
  range_named ts name = find (fun t => String.eqb (Name t) name) ts.
Proof. induction ts as [|t ts IH]; simpl; [reflexivity|]. now rewrite IH. Qed.

Lemma range_Services_named_find (ss : list ServiceExpr) (name : string) :
  range_Services_named ss name = find (fun s => String.eqb (ServiceName s) name) ss.
Proof. induction ss as [|x ss IH]; simpl; [reflexivity|]. now rewrite IH. Qed.

Lemma range_Errors_named_find (es : list ErrorExpr) (name : string) :
  range_Errors_named es name = find (fun e => String.eqb (ErrorName e) name) es.
Proof. induction es as [|x es IH]; simpl; [reflexivity|]. now rewrite IH. Qed.

(** The first element named [name], with everything before it named
    otherwise; or nothing, when no element is named so. *)
Lemma find_first {A : Type} (key : A -> string) (l : list A) (name : string) :
  match find (fun x => String.eqb (key x) name) l with
  | Some x =>
      exists before after,
        l = before ++ x :: after /\ key x = name /\
        Forall (fun y => key y <> name) before
  | None => Forall (fun y => key y <> name) l
  end.
Proof.
  induction l as [|x l IH]; simpl; [apply Forall_nil|].
  destruct (String.eqb_spec (key x) name) as [Heq|Hneq].
  - exists [], l. split; [reflexivity|]. split; [exact Heq|apply Forall_nil].
  - destruct (find _ l) as [x'|].
    + destruct IH as (before & after & -> & Hname & Hbefore).
      exists (x :: before), after. split; [reflexivity|]. split; [exact Hname|].
      apply Forall_cons; assumption.
    + apply Forall_cons; assumption.
Qed.

(** Among elements with distinct names, each one is found by its name. *)
Lemma find_registered {A : Type} (key : A -> string) (l : list A) (x : A) :
  NoDup (map key l) -> In x l ->
  find (fun y => String.eqb (key y) (key x)) l = Some x.
Proof.
  induction l as [|y l IH]; intros Hnd Hin; [destruct Hin|].
  simpl in Hnd. apply NoDup_cons_iff in Hnd. destruct Hnd as [Hy Hnd].
  simpl. destruct Hin as [->|Hin].
  - now rewrite String.eqb_refl.
  - destruct (String.eqb_spec (key y) (key x)) as [Heq|_].
    + exfalso. apply Hy. rewrite Heq. apply in_map, Hin.
    + apply IH; assumption.
Qed.

Lemma UserType_find (r : RootExpr) (name : string) :
  UserType r name =
  find (fun t => String.eqb (Name t) name) (Types r ++ ResultTypes r).
Proof.
  unfold UserType. rewrite !range_named_find.
  induction (Types r) as [|t ts IH]; simpl.
  - destruct (find _ (ResultTypes r)); reflexivity.
  - destruct (String.eqb (Name t) name); [reflexivity|exact IH].
Qed.

(** X3. [Service] returns the first service of the registry with the given
    name, every service before it having another name, and nil exactly when
    no service has the name. *)
Theorem Service_returns_first_match (r : RootExpr) (name : string) :
  match Service r name with
  | Some s =>
      exists before after,
        Services r = before ++ s :: after /\ ServiceName s = name /\
        Forall (fun x => ServiceName x <> name) before
  | None => Forall (fun x => ServiceName x <> name) (Services r)
  end.
Proof.
  unfold Service. rewrite range_Services_named_find.
  apply (find_first ServiceName).
Qed.

(** X4. [Error] returns the first error of the registry with the given
    name, every error before it having another name, and nil exactly when
    no error has the name. *)
Theorem Error_returns_first_match (r : RootExpr) (name : string) :
  match Error r name with
  | Some e =>
      exists before after,
        Errors r = before ++ e :: after /\ ErrorName e = name /\
        Forall (fun x => ErrorName x <> name) before
  | None => Forall (fun x => ErrorName x <> name) (Errors r)
  end.
Proof.
  unfold Error. rewrite range_Errors_named_find.
  apply (find_first ErrorName).
Qed.

(** X5. In a registry whose services have distinct names, whose errors have
    distinct names, and whose user types and result types together have
    distinct names, every registered service, error and type is the one its
    name looks up. *)
Theorem registered_nodes_are_found (r : RootExpr) :
  NoDup (map ServiceName (Services r)) ->
  NoDup (map ErrorName (Errors r)) ->
  NoDup (map Name (Types r ++ ResultTypes r)) ->
  (forall s, In s (Services r) -> Service r (ServiceName s) = Some s) /\
  (forall e, In e (Errors r) -> Error r (ErrorName e) = Some e) /\
  (forall t, In t (Types r ++ ResultTypes r) -> UserType r (Name t) = Some t).
Proof.
  intros HS HE HT. repeat split.
  - intros s Hs. unfold Service. rewrite range_Services_named_find.
    apply (find_registered ServiceName); assumption.
  - intros e He. unfold Error. rewrite range_Errors_named_find.
    apply (find_registered ErrorName); assumption.
  - intros t Ht. rewrite UserType_find.
    apply (find_registered Name); assumption.
Qed.

Lemma registered_nodes_are_found_witness :
  Service (sample_root None) "S2" = Some S2 /\
  UserType (sample_root None) "AccountResult" = Some account_result.
Proof.
  assert (HS : NoDup (map ServiceName (Services (sample_root None)))).
  { repeat constructor; simpl; intuition discriminate. }
  assert (HE : NoDup (map ErrorName (Errors (sample_root None)))).
  { constructor. }
  assert (HT : NoDup (map Name (Types (sample_root None) ++
                                ResultTypes (sample_root None)))).
  { repeat constructor; simpl; intuition discriminate. }
  destruct (registered_nodes_are_found (sample_root None) HS HE HT)
    as (Hs & _ & Ht).
  split.
  - apply (Hs S2). simpl. auto.
  - apply (Ht account_result). simpl. auto.
Defined.

(** X6. A user type hides a result type of the same name: when some user
    type has the name, [UserType] returns a node of the user types, whatever
    the result types hold. *)
Theorem UserType_prefers_user_types (r : RootExpr) (name : string) :
  (exists t, In t (Types r) /\ Name t = name) ->
  exists t, UserType r name = Some t /\ In t (Types r).
Proof.
  intros (t & Hin & Hname). unfold UserType. rewrite range_named_find.
  destruct (find (fun u => String.eqb (Name u) name) (Types r)) as [u|] eqn:Hfind.
  - exists u. split; [reflexivity|]. apply find_some in Hfind. tauto.
  - exfalso. apply (find_none _ _ Hfind) in Hin.
    rewrite Hname, String.eqb_refl in Hin. discriminate Hin.
Qed.

Lemma UserType_prefers_user_types_witness :
  exists t, UserType (sample_root None) "Account" = Some t /\
            In t (Types (sample_root None)).
Proof.
  apply (UserType_prefers_user_types (sample_root None) "Account").
  exists account. split; [simpl; auto|reflexivity].
Defined.

(** ** [GeneratedResultType] *)



(** X8. A generated node that is not a result type makes the lookup panic
    exactly when no result type before it has the identifier: a match
    before it is returned, the node never being looked at. *)
Theorem GeneratedResultType_panics_at_other_nodes
        (r : RootExpr) (rts : list ResultTypeExpr) (u : UserTypeExpr)
        (rest : list UserTypeI) (id : string) :
  GeneratedTypes r = map IsResultTypeExpr rts ++ IsUserTypeExpr u :: rest ->
  GeneratedResultType r id =
  match find (fun rt => String.eqb (Identifier rt) id) rts with
  | Some rt => Ret (Some rt)
  | None => Panic
  end.
Proof.
  intros H. unfold GeneratedResultType. rewrite H. clear H.
  induction rts as [|rt rts IH]; simpl; [reflexivity|].
  destruct (String.eqb (Identifier rt) id); [reflexivity|exact IH].
Qed.

Lemma GeneratedResultType_panics_at_other_nodes_witness :
  GeneratedResultType
    (generated_root [IsResultTypeExpr account_default; account;
                     IsResultTypeExpr account_tiny])
    "application/vnd.account; view=tiny" = Panic /\
  GeneratedResultType
    (generated_root [IsResultTypeExpr account_default; account;
                     IsResultTypeExpr account_tiny])
    "application/vnd.account; view=default" = Ret (Some account_default).
Proof.
  split.
  - exact (GeneratedResultType_panics_at_other_nodes
             (generated_root [IsResultTypeExpr account_default; account;
                              IsResultTypeExpr account_tiny])
             [account_default] _ [IsResultTypeExpr account_tiny]
             "application/vnd.account; view=tiny" eq_refl).
  - exact (GeneratedResultType_panics_at_other_nodes
             (generated_root [IsResultTypeExpr account_default; account;
                              IsResultTypeExpr account_tiny])
             [account_default] _ [IsResultTypeExpr account_tiny]
             "application/vnd.account; view=default" eq_refl).
Defined.

(** ** [HTTPSchemes], case by case *)

Lemma range_Servers_parsed (url_Parse : string -> option URLValue)
      (servers : list ServerExpr) (schemes : list string) :
  range_Servers url_Parse servers schemes =
  if forallb (fun s => match url_Parse (URL s) with
                       | Some _ => true
                       | None => false
                       end) servers
  then Ret schemes else Panic.
Proof.
  induction servers as [|s servers IH]; simpl; [reflexivity|].
  destruct (url_Parse (URL s)); [exact IH|reflexivity].
Qed.

(** X9. [HTTPSchemes] returns, and then returns no scheme, exactly when the
    API node is set and the URL of every server parses; it panics when the
    API node is nil and when the URL of some server does not parse. *)
Theorem HTTPSchemes_returns_or_panics
        (url_Parse : string -> option URLValue) (r : RootExpr) :
  HTTPSchemes url_Parse r =
  match API r with
  | None => Panic
  | Some api =>
      if forallb (fun s => match url_Parse (URL s) with
                           | Some _ => true
                           | None => false
                           end) (Servers api)
      then Ret []
      else Panic
  end.
Proof.
  unfold HTTPSchemes. destruct (API r) as [api|]; [|reflexivity].
  cbn [deref bindGo]. rewrite range_Servers_parsed.
  destruct (forallb _ (Servers api)); reflexivity.
Qed.

(** ** [Dup] *)

Lemma meta_load_store (d : MetaExpr) (k k' : string) (v : list string) :
  meta_load (meta_store d k v) k' =
  if String.eqb k k' then Some v else meta_load d k'.
Proof.
  induction d as [|[k0 v0] d IH]; simpl.
  - reflexivity.
  - destruct (String.eqb_spec k0 k) as [->|Hk0]; simpl.
    + destruct (String.eqb k k'); reflexivity.
    + rewrite IH. destruct (String.eqb_spec k0 k') as [->|_]; [|reflexivity].
      apply String.eqb_neq in Hk0. rewrite String.eqb_sym in Hk0.
      now rewrite Hk0.
Qed.

Lemma keys_meta_store (d : MetaExpr) (k : string) (v : list string) :
  map fst (meta_store d k v) =
  if existsb (String.eqb k) (map fst d) then map fst d else map fst d ++ [k].
Proof.
  induction d as [|[k0 v0] d IH]; simpl; [reflexivity|].
  rewrite (String.eqb_sym k k0).
  destruct (String.eqb_spec k0 k) as [->|Hk0]; simpl; [reflexivity|].
  rewrite IH. destruct (existsb _ (map fst d)); reflexivity.
Qed.

Lemma is_map_meta_store (d : MetaExpr) (k : string) (v : list string) :
  is_map d -> is_map (meta_store d k v).
Proof.
  unfold is_map. intros Hd. rewrite keys_meta_store.
  destruct (existsb (String.eqb k) (map fst d)) eqn:Hk; [exact Hd|].
  apply NoDup_app; [exact Hd|repeat constructor; intros []|].
  intros x Hx [<-|[]].
  assert (existsb (String.eqb k) (map fst d) = true); [|congruence].
  apply existsb_exists. exists k. split; [exact Hx|apply String.eqb_refl].
Qed.

Lemma is_map_range_Meta (visited d : MetaExpr) :
  is_map d -> is_map (range_Meta visited d).
Proof.
  revert d. induction visited as [|[k v] visited IH]; intros d Hd; simpl;
    [exact Hd|].
  apply IH, is_map_meta_store, Hd.
Qed.

Lemma meta_load_absent (m : MetaExpr) (k : string) :
  ~ In k (map fst m) -> meta_load m k = None.
Proof.
  induction m as [|[k0 v0] m IH]; simpl; intros H; [reflexivity|].
  destruct (String.eqb_spec k0 k) as [->|_]; [tauto|]. apply IH. tauto.
Qed.

Lemma meta_load_range_Meta (visited d : MetaExpr) (k : string) :
  is_map visited ->
  meta_load (range_Meta visited d) k =
  match meta_load visited k with
  | Some v => Some v
  | None => meta_load d k
  end.
Proof.
  unfold is_map. revert d. induction visited as [|[k0 v0] visited IH];
    intros d Hnd; simpl; [reflexivity|].
  simpl in Hnd. apply NoDup_cons_iff in Hnd. destruct Hnd as [Hk0 Hnd].
  rewrite (IH _ Hnd), meta_load_store.
  destruct (String.eqb_spec k0 k) as [->|_]; [|reflexivity].
  now rewrite (meta_load_absent visited k Hk0).
Qed.

Lemma meta_load_In (m : MetaExpr) (k : string) (v : list string) :
  is_map m -> (meta_load m k = Some v <-> In (k, v) m).
Proof.
  unfold is_map. induction m as [|[k0 v0] m IH]; simpl; intros Hnd.
  - split; [discriminate|tauto].
  - apply NoDup_cons_iff in Hnd. destruct Hnd as [Hk0 Hnd].
    destruct (String.eqb_spec k0 k) as [->|Hne].
    + split.
      * intros [= ->]. now left.
      * intros [[= ->]|Hin]; [reflexivity|].
        exfalso. apply Hk0. change k with (fst (k, v)). apply in_map, Hin.
    + rewrite (IH Hnd). split; [tauto|]. intros [[= -> _]|Hin]; [tauto|exact Hin].
Qed.

Lemma meta_load_Permutation (m m' : MetaExpr) (k : string) :
  is_map m -> Permutation m' m -> meta_load m' k = meta_load m k.
Proof.
  intros Hm Hp.
  assert (Hm' : is_map m').
  { unfold is_map in *. eapply Permutation_NoDup; [|exact Hm].
    apply Permutation_map, Permutation_sym, Hp. }
  destruct (meta_load m k) as [v|] eqn:E.
  - apply (meta_load_In m' k v Hm'). apply (meta_load_In m k v Hm) in E.
    eapply Permutation_in; [apply Permutation_sym, Hp|exact E].
  - destruct (meta_load m' k) as [v'|] eqn:E'; [|reflexivity].
    apply (meta_load_In m' k v' Hm') in E'.
    apply (Permutation_in _ Hp) in E'. apply (meta_load_In m k v' Hm) in E'.
    congruence.
Qed.

(** X10. The duplicate of a map is a map that binds every key as the
    original does: a key of the original has the same value list in the
    duplicate, and a key the original lacks is missing from it. This holds
    in whatever order the loop visits the bindings. *)
Theorem Dup_keeps_the_bindings (m : MetaExpr) :
  is_map m ->
  is_map (Dup m) /\
  (forall k, meta_load (Dup m) k = meta_load m k) /\
  (forall visited k,
      Permutation visited m ->
      meta_load (range_Meta visited []) k = meta_load m k).
Proof.
  intros Hm.
  assert (Hany : forall visited k,
             Permutation visited m ->
             meta_load (range_Meta visited []) k = meta_load m k).
  { intros visited k Hp.
    assert (Hv : is_map visited).
    { unfold is_map in *. eapply Permutation_NoDup; [|exact Hm].
      apply Permutation_map, Permutation_sym, Hp. }
    rewrite (meta_load_range_Meta visited [] k Hv),
      (meta_load_Permutation m visited k Hm Hp).
    destruct (meta_load m k); reflexivity. }
  split; [apply is_map_range_Meta; constructor|].
  split; [|exact Hany].
  intros k. apply Hany, Permutation_refl.
Qed.

Lemma Dup_keeps_the_bindings_witness :
  meta_load (Dup (Meta (sample_root None))) "swagger:generate" = Some ["false"].
Proof.
  assert (Hm : is_map (Meta (sample_root None))).
  { repeat constructor. intros []. }
  exact (proj1 (proj2 (Dup_keeps_the_bindings (Meta (sample_root None)) Hm))
               "swagger:generate").
Defined.

(** ** The sort, when there is nothing to move *)

Section SliceStable_at_rest.
Context {A : Type}.
Variable less : list A -> nat -> nat -> bool.

Lemma insertion_inner_rests (a j : nat) (d : list A) :
  less d j (j - 1) = false -> insertion_inner less a j d = d.
Proof.
  destruct j as [|j]; [reflexivity|]. simpl. rewrite Nat.sub_0_r.
  intros ->. now rewrite andb_false_r.
Qed.

Lemma insertion_outer_rests (fuel a lo b : nat) (d : list A) :
  (forall i, lo <= i -> i < b -> less d i (i - 1) = false) ->
  insertion_outer less fuel a lo b d = d.
Proof.
  revert lo. induction fuel as [|fuel IH]; intros lo H; simpl; [reflexivity|].
  destruct (Nat.ltb_spec lo b); [|reflexivity].
  rewrite insertion_inner_rests by (apply H; lia).
  apply IH. intros i Hlo Hb. apply H; lia.
Qed.

(** Fewer than 20 elements, none of which sorts before its left neighbour:
    the sort changes nothing. *)
Lemma SliceStable_rests_small (d : list A) :
  List.length d < 20 ->
  (forall i, 1 <= i -> i < List.length d -> less d i (i - 1) = false) ->
  SliceStable less d = d.
Proof.
  intros Hn H. rewrite (SliceStable_small less d Hn).
  apply insertion_outer_rests. exact H.
Qed.

Lemma bsearch_all (fuel : nat) (test : nat -> bool) (i j : nat) :
  (forall h, test h = true) -> i <= j -> j - i <= fuel ->
  bsearch fuel test i j = j.
Proof.
  intros Ht. revert i. induction fuel as [|fuel IH]; intros i Hij Hf;
    cbn [bsearch]; [lia|].
  destruct (Nat.ltb_spec i j); [|lia].
  rewrite Ht. destruct (half_bounds i j). apply IH; lia.
Qed.

Lemma bsearch_none (fuel : nat) (test : nat -> bool) (i j : nat) :
  (forall h, test h = false) -> bsearch fuel test i j = i.
Proof.
  intros Ht. revert j. induction fuel as [|fuel IH]; intros j;
    cbn [bsearch]; [reflexivity|].
  destruct (i <? j); [|reflexivity]. rewrite Ht. apply IH.
Qed.

Lemma shift_down_rests (d : list A) (k : nat) : shift_down d k k = d.
Proof. destruct k; simpl; [reflexivity|]. now rewrite Nat.ltb_irrefl. Qed.

Lemma shift_up_rests (fuel : nat) (d : list A) (a i : nat) :
  i - 1 <= a -> shift_up fuel d a i = d.
Proof.
  intros H. destruct fuel; simpl; [reflexivity|].
  destruct (Nat.ltb_spec a (i - 1)); [lia|reflexivity].
Qed.

Lemma symMerge_rests (fuel : nat) (d : list A) (a m b : nat) :
  (forall i j, less d i j = false) -> a <= m -> m <= b ->
  symMerge less fuel d a m b = d.
Proof.
  intros Hless. revert a m b. induction fuel as [|fuel IH]; intros a m b Ham Hmb;
    [reflexivity|].
  cbn [symMerge].
  destruct (Nat.eqb_spec (m - a) 1) as [H1|H1].
  { rewrite bsearch_none by (intros h; apply Hless).
    apply shift_up_rests. lia. }
  destruct (Nat.eqb_spec (b - m) 1) as [H2|H2].
  { rewrite bsearch_all; [apply shift_down_rests| |lia|lia].
    intros h. now rewrite Hless. }
  destruct (half_bounds a b) as [Hlo Hhi].
  destruct (Nat.ltb_spec ((a + b) / 2) m) as [Hmid|Hmid]; cbv zeta.
  - rewrite bsearch_all; [| |lia|lia]; [|intros h; now rewrite Hless].
    replace ((a + b) / 2 + m - (a + b) / 2) with m by lia.
    rewrite !Nat.ltb_irrefl, !andb_false_r.
    destruct (_ && _); [|reflexivity]. apply IH; lia.
  - rewrite bsearch_all; [| |lia|lia]; [|intros h; now rewrite Hless].
    replace ((a + b) / 2 + m - m) with ((a + b) / 2) by lia.
    rewrite !Nat.ltb_irrefl. cbn [andb].
    destruct ((a <? m) && (m <? (a + b) / 2)); [|reflexivity]. apply IH; lia.
Qed.

Lemma stable_blocks_rests (fuel : nat) (d : list A) (a b n blockSize : nat) :
  (forall i j, less d i j = false) ->
  snd (stable_blocks less fuel d a b n blockSize) = d.
Proof.
  intros Hless. revert a b. induction fuel as [|fuel IH]; intros a b; simpl;
    [reflexivity|].
  destruct (b <=? n); [|reflexivity].
  unfold insertionSort. rewrite insertion_outer_rests by (intros; apply Hless).
  apply IH.
Qed.

Lemma stable_pass_rests (fuel : nat) (d : list A) (a b n blockSize : nat) :
  (forall i j, less d i j = false) -> a + blockSize <= b ->
  snd (stable_pass less fuel d a b n blockSize) = d.
Proof.
  intros Hless. revert a b. induction fuel as [|fuel IH]; intros a b Hab;
    cbn [stable_pass]; [reflexivity|].
  destruct (b <=? n); [|reflexivity].
  rewrite symMerge_rests by (assumption || lia). apply IH. lia.
Qed.

Lemma stable_merge_rests (fuel : nat) (d : list A) (n blockSize : nat) :
  (forall i j, less d i j = false) ->
  stable_merge less fuel d n blockSize = d.
Proof.
  intros Hless. revert blockSize. induction fuel as [|fuel IH]; intros blockSize;
    cbn [stable_merge]; [reflexivity|].
  destruct (blockSize <? n); [|reflexivity].
  pose proof (stable_pass_rests n d 0 (2 * blockSize) n blockSize Hless) as Hp.
  destruct (stable_pass less n d 0 (2 * blockSize) n blockSize) as [a d1].
  cbn [snd] in Hp. rewrite Hp by lia.
  destruct (Nat.ltb_spec (a + blockSize) n).
  - rewrite symMerge_rests by (assumption || lia). apply IH.
  - apply IH.
Qed.

(** A closure that answers no on the slice, for every pair of indices: the
    sort changes nothing, whatever the length. *)
Lemma SliceStable_rests (d : list A) :
  (forall i j, less d i j = false) -> SliceStable less d = d.
Proof.
  intros Hless. unfold SliceStable, stable.
  pose proof (stable_blocks_rests (List.length d) d 0 20 (List.length d) 20 Hless)
    as Hb.
  destruct (stable_blocks less (List.length d) d 0 20 (List.length d) 20) as [a d1].
  cbn [snd] in Hb. subst d1.
  unfold insertionSort. rewrite insertion_outer_rests by (intros; apply Hless).
  apply stable_merge_rests, Hless.
Qed.

End SliceStable_at_rest.

(** ** The sort, by the parent test of the closures *)

Section Sorting_by_parent.
Context {A : Type}.
Variable parent_of : A -> A -> bool.

Lemma less_by_unrelated (d : list A) (i j : nat) :
  unrelated parent_of d -> less_by parent_of d i j = false.
Proof.
  intros H. unfold less_by.
  destruct (nth_error d j) as [sj|] eqn:Hj; [|reflexivity].
  destruct (nth_error d i) as [si|] eqn:Hi; [|reflexivity].
  apply H; eapply nth_error_In; eassumption.
Qed.

Lemma less_by_neighbours (d : list A) (i : nat) :
  no_parent_behind parent_of d -> 1 <= i ->
  less_by parent_of d i (i - 1) = false.
Proof.
  revert i. induction d as [|x d IH]; intros i H Hi.
  - unfold less_by. now destruct (i - 1).
  - destruct i as [|[|i]]; [lia| |].
    + unfold less_by. simpl. destruct d as [|y d]; [reflexivity|]. apply H.
    + destruct d as [|y d]; [unfold less_by; simpl; now destruct i|].
      destruct H as [_ H]. specialize (IH (S i) H ltac:(lia)).
      unfold less_by in *. simpl in *. rewrite Nat.sub_0_r in IH. exact IH.
Qed.

Lemma less_by_app_l (p q : list A) (i j : nat) :
  i < List.length p -> j < List.length p ->
  less_by parent_of (p ++ q) i j = less_by parent_of p i j.
Proof.
  intros Hi Hj. unfold less_by. now rewrite !nth_error_app1.
Qed.

Lemma less_by_app_r (p q : list A) (i j : nat) :
  List.length p <= i -> List.length p <= j ->
  less_by parent_of (p ++ q) i j =
  less_by parent_of q (i - List.length p) (j - List.length p).
Proof.
  intros Hi Hj. unfold less_by. now rewrite !nth_error_app2.
Qed.

Lemma Swap_cons (h : A) (t : list A) (i j : nat) :
  Swap (h :: t) (S i) (S j) = h :: Swap t i j.
Proof.
  unfold Swap. simpl.
  destruct (nth_error t i); [|reflexivity].
  destruct (nth_error t j); reflexivity.
Qed.

Lemma Swap_neighbours (l1 l2 : list A) (x y : A) :
  Swap (l1 ++ x :: y :: l2) (S (List.length l1)) (List.length l1) =
  l1 ++ y :: x :: l2.
Proof.
  induction l1 as [|h l1 IH]; [reflexivity|].
  cbn [List.length app]. now rewrite Swap_cons, IH.
Qed.

Lemma insertion_outer_skips (fuel a lo k b : nat) (d : list A) :
  (forall i, lo <= i -> i < k -> less_by parent_of d i (i - 1) = false) ->
  lo <= k -> k <= b -> b - lo <= fuel ->
  insertion_outer (less_by parent_of) fuel a lo b d =
  insertion_outer (less_by parent_of) (fuel - (k - lo)) a k b d.
Proof.
  revert lo. induction fuel as [|fuel IH]; intros lo H Hlk Hkb Hf.
  - assert (lo = k) by lia. subst. reflexivity.
  - destruct (Nat.eq_dec lo k) as [->|Hne].
    + now rewrite Nat.sub_diag, Nat.sub_0_r.
    + cbn [insertion_outer]. destruct (Nat.ltb_spec lo b); [|lia].
      rewrite insertion_inner_rests by (apply H; lia).
      rewrite (IH (S lo)); [|intros; apply H; lia|lia|lia|lia].
      f_equal. lia.
Qed.

(** No element is the parent of an element of the slice: nothing moves. *)
Lemma SliceStable_unrelated (d : list A) :
  unrelated parent_of d -> SliceStable (less_by parent_of) d = d.
Proof.
  intros H. apply SliceStable_rests. intros i j. now apply less_by_unrelated.
Qed.

(** Fewer than 20 elements, none the parent of its left neighbour: nothing
    moves. *)
Lemma SliceStable_no_parent_behind (d : list A) :
  List.length d < 20 -> no_parent_behind parent_of d ->
  SliceStable (less_by parent_of) d = d.
Proof.
  intros Hn H. apply SliceStable_rests_small; [exact Hn|].
  intros i Hi _. now apply less_by_neighbours.
Qed.

(** Fewer than 20 elements, with a child [b] just before its parent [a] and
    no other element the parent of its left neighbour, before or after the
    exchange: the two are exchanged and nothing else moves. *)
Lemma SliceStable_child_then_parent (l1 l2 : list A) (a b : A) :
  List.length (l1 ++ b :: a :: l2) < 20 ->
  parent_of a b = true ->
  no_parent_behind parent_of (l1 ++ [b]) ->
  no_parent_behind parent_of (l1 ++ [a]) ->
  no_parent_behind parent_of (b :: l2) ->
  SliceStable (less_by parent_of) (l1 ++ b :: a :: l2) = l1 ++ a :: b :: l2.
Proof.
  intros Hn Hab H1b H1a Hb2.
  rewrite (SliceStable_small _ _ Hn). unfold insertionSort.
  set (n := List.length (l1 ++ b :: a :: l2)) in *.
  assert (En : n = List.length l1 + 2 + List.length l2).
  { unfold n. rewrite length_app. simpl. lia. }
  rewrite (insertion_outer_skips n 0 (0 + 1) (S (List.length l1)) n); try lia.
  2:{ intros i Hlo Hhi.
      change (l1 ++ b :: a :: l2) with (l1 ++ [b] ++ a :: l2).
      rewrite app_assoc, less_by_app_l by (rewrite length_app; simpl; lia).
      apply less_by_neighbours; [exact H1b|lia]. }
  replace (n - (S (List.length l1) - (0 + 1))) with (S (n - S (List.length l1)))
    by lia.
  cbn [insertion_outer]. destruct (Nat.ltb_spec (S (List.length l1)) n); [|lia].
  assert (Hin : insertion_inner (less_by parent_of) 0 (S (List.length l1))
                                (l1 ++ b :: a :: l2) = l1 ++ a :: b :: l2).
  { cbn [insertion_inner].
    assert (Ht : less_by parent_of (l1 ++ b :: a :: l2) (S (List.length l1))
                         (List.length l1) = true).
    { unfold less_by. rewrite !nth_error_app2 by lia.
      rewrite Nat.sub_diag.
      replace (S (List.length l1) - List.length l1) with 1 by lia. exact Hab. }
    rewrite Ht, Swap_neighbours. cbn [Nat.ltb Nat.leb andb].
    destruct l1 as [|h l1]; [reflexivity|].
    apply insertion_inner_rests.
    change ((h :: l1) ++ a :: b :: l2) with ((h :: l1) ++ [a] ++ b :: l2).
    rewrite app_assoc, less_by_app_l by (rewrite length_app; simpl; lia).
    apply less_by_neighbours; [exact H1a|simpl; lia]. }
  rewrite Hin. apply insertion_outer_rests.
  intros i Hlo Hhi.
  change (l1 ++ a :: b :: l2) with (l1 ++ [a] ++ b :: l2).
  rewrite app_assoc, less_by_app_r by (rewrite length_app; simpl; lia).
  rewrite length_app. cbn [List.length].
  replace (i - 1 - (List.length l1 + 1)) with (i - (List.length l1 + 1) - 1) by lia.
  apply less_by_neighbours; [exact Hb2|lia].
Qed.

End Sorting_by_parent.

(** ** More on the stages of [WalkSets] *)

Lemma forallb_isResultTypeExpr_map (rts : list ResultTypeExpr) :
  forallb isResultTypeExpr (map IsResultTypeExpr rts) = true.
Proof. induction rts; simpl; auto. Qed.

Lemma forallb_isResultTypeExpr_In (ts : list UserTypeI) (u : UserTypeExpr) :
  In (IsUserTypeExpr u) ts -> forallb isResultTypeExpr ts = false.
Proof.
  induction ts as [|t ts IH]; intros H; [destruct H|].
  destruct H as [->|H]; simpl; [reflexivity|].
  rewrite (IH H). apply andb_false_r.
Qed.

Lemma forallb_isResultTypeExpr_none (ts : list UserTypeI) :
  (forall u, ~ In (IsUserTypeExpr u) ts) -> forallb isResultTypeExpr ts = true.
Proof.
  induction ts as [|t ts IH]; intros H; [reflexivity|].
  destruct t as [u|rt]; [exfalso; apply (H u); now left|].
  simpl. apply IH. intros u Hu. apply (H u). now right.
Qed.

(** X11. The second batch of every walk holds, for each user type in
    registry order, the attribute of the type and not the type itself; when
    the result types are result type nodes, the third batch holds them in
    registry order. Neither batch holds a nil entry. *)
Theorem type_stages_follow_the_registry
        {St : Type} (walk : SetWalker St) (r : RootExpr) (s : St) :
  let bs := batches (WalkSets walk (start r s)) in
  nth_error bs 1 =
  Some (map (fun t => Some (ExprAttribute (Attribute t))) (Types r)) /\
  forall rts,
    ResultTypes r = map IsResultTypeExpr rts ->
    nth_error bs 2 = Some (map (fun rt => Some (ExprResultType rt)) rts).
Proof.
  cbv zeta. rewrite batches_WalkSets. split.
  - destruct (forallb isResultTypeExpr (ResultTypes r)); reflexivity.
  - intros rts Hrts. unfold stages, ResultTypes_stage.
    rewrite Hrts, forallb_isResultTypeExpr_map. cbn [nth_error]. f_equal.
    clear Hrts. induction rts as [|rt rts IH]; simpl; [reflexivity|].
    now rewrite IH.
Qed.

Lemma type_stages_follow_the_registry_witness :
  nth_error (batches (WalkSets never_fails (start (sample_root None) tt))) 2 =
  Some [Some (ExprResultType
                {| ResultTypeExpr_UserTypeExpr :=
                     {| UserTypeExpr_AttributeExpr :=
                          {| Description := "account result" |};
                        TypeName := "AccountResult" |};
                   Identifier := "application/vnd.account" |})].
Proof.
  exact (proj2 (type_stages_follow_the_registry never_fails (sample_root None) tt)
               [_] eq_refl).
Defined.

(** X12. A walk panics exactly when the result types hold a node that is
    not a result type. It has then handed the callback the API batch and
    the user types batch and nothing else, and leaves the registry as it
    was, apart from the default API node; the transport services are not
    sorted. *)
Theorem walk_panics_on_other_result_types
        {St : Type} (walk : SetWalker St) (r : RootExpr) (s : St) :
  ((exists u, In (IsUserTypeExpr u) (ResultTypes r)) ->
   exists w,
     WalkSets walk (start r s) = Panicked w /\
     map fst (presented w) =
     [[Some (ExprAPI (API_of r))];
      map (fun t => Some (ExprAttribute (Attribute t))) (Types r)] /\
     root w = with_API r (API_of r)) /\
  ((forall u, ~ In (IsUserTypeExpr u) (ResultTypes r)) ->
   exists w, WalkSets walk (start r s) = Done tt w).
Proof.
  split.
  - intros (u & Hu). rewrite WalkSets_runs.
    rewrite (forallb_isResultTypeExpr_In _ u Hu).
    eexists. split; [reflexivity|]. split; [|reflexivity].
    cbn [with_root presented]. rewrite batches_present_all. reflexivity.
  - intros H. rewrite WalkSets_runs.
    rewrite (forallb_isResultTypeExpr_none _ H). eexists. reflexivity.
Qed.

Lemma walk_panics_on_other_result_types_witness :
  (exists w, WalkSets never_fails (start mistyped_root tt) = Panicked w) /\
  (exists w, WalkSets never_fails (start empty_root tt) = Done tt w).
Proof.
  split.
  - destruct (proj1 (walk_panics_on_other_result_types never_fails mistyped_root tt))
      as (w & Hw & _).
    + eexists. simpl. left. reflexivity.
    + exists w. exact Hw.
  - apply (proj2 (walk_panics_on_other_result_types never_fails empty_root tt)).
    intros u [].
Defined.

Lemma root_after_walk {St : Type} (walk : SetWalker St) (r : RootExpr) (s : St) :
  forallb isResultTypeExpr (ResultTypes r) = true ->
  root (final (WalkSets walk (start r s))) = walked r.
Proof. intros H. now rewrite root_WalkSets, H. Qed.

(** X13. In a walk that gets past the result types, the three HTTP batches
    follow one order of the HTTP services, the one the registry stores when
    the walk ends, which is a rearrangement of the one stored before: the
    services batch is that sequence, the endpoints batch the concatenation
    of the services' endpoints, the file servers batch the concatenation of
    their file servers. *)
Theorem HTTP_stages_follow_the_stored_order
        {St : Type} (walk : SetWalker St) (r : RootExpr) (s : St) :
  forallb isResultTypeExpr (ResultTypes r) = true ->
  let o := WalkSets walk (start r s) in
  exists api',
    API (root (final o)) = Some api' /\
    Permutation (HTTP_Services (HTTP api')) (HTTP_Services (HTTP (API_of r))) /\
    nth_error (batches o) 5 =
    Some (map (fun svc => Some (ExprHTTPService svc)) (HTTP_Services (HTTP api'))) /\
    nth_error (batches o) 6 =
    Some (flat_map (fun svc => map (fun e => Some (ExprHTTPEndpoint e))
                                   (HTTPEndpoints svc))
                   (HTTP_Services (HTTP api'))) /\
    nth_error (batches o) 7 =
    Some (flat_map (fun svc => map (fun f => Some (ExprHTTPFileServer f))
                                   (FileServers svc))
                   (HTTP_Services (HTTP api'))).
Proof.
  intros H. cbv zeta. rewrite batches_WalkSets, (root_after_walk walk r s H), H.
  eexists. split; [reflexivity|].
  split; [apply SliceStable_Permutation|]. repeat split; reflexivity.
Qed.

Lemma HTTP_stages_follow_the_stored_order_witness :
  exists api',
    API (root (final (WalkSets never_fails
                        (start (sample_root (Some (sample_api [hB; hA] []))) tt)))) =
    Some api' /\
    Permutation (HTTP_Services (HTTP api')) [hB; hA].
Proof.
  destruct (HTTP_stages_follow_the_stored_order
              never_fails (sample_root (Some (sample_api [hB; hA] []))) tt eq_refl)
    as (api' & Hapi & Hperm & _).
  exists api'. split; [exact Hapi|exact Hperm].
Defined.

Lemma range_GRPCEndpoints_shape (es : list GRPCEndpointExpr)
      (endpoints : ExpressionSet) :
  range_GRPCEndpoints es endpoints [] =
  match rev es with
  | [] => []
  | e :: _ => endpoints ++ [Some (ExprGRPCEndpoint e)]
  end.
Proof.
  destruct es as [|e0 es] using rev_ind; [reflexivity|].
  rewrite rev_unit. apply range_GRPCEndpoints_last.
Qed.

(** X14. In a walk that gets past the result types, the gRPC services batch
    is the sequence of gRPC services the registry stores when the walk
    ends, a rearrangement of the one stored before. *)
Theorem GRPC_services_stage_follows_the_stored_order
        {St : Type} (walk : SetWalker St) (r : RootExpr) (s : St) :
  forallb isResultTypeExpr (ResultTypes r) = true ->
  let o := WalkSets walk (start r s) in
  exists api',
    API (root (final o)) = Some api' /\
    Permutation (GRPC_Services (GRPC api')) (GRPC_Services (GRPC (API_of r))) /\
    nth_error (batches o) 8 =
    Some (map (fun svc => Some (ExprGRPCService svc)) (GRPC_Services (GRPC api'))).
Proof.
  intros H. cbv zeta. rewrite batches_WalkSets, (root_after_walk walk r s H), H.
  eexists. split; [reflexivity|].
  split; [apply SliceStable_Permutation|reflexivity].
Qed.

Lemma GRPC_services_stage_follows_the_stored_order_witness :
  exists api',
    API (root (final (WalkSets never_fails
                        (start (sample_root (Some (sample_api [] [gB; gA]))) tt)))) =
    Some api' /\
    Permutation (GRPC_Services (GRPC api')) [gB; gA].
Proof.
  destruct (GRPC_services_stage_follows_the_stored_order
              never_fails (sample_root (Some (sample_api [] [gB; gA]))) tt eq_refl)
    as (api' & Hapi & Hperm & _).
  exists api'. split; [exact Hapi|exact Hperm].
Defined.

(** X15. In a walk that gets past the result types, the last batch is empty
    when no gRPC service has an endpoint; otherwise it is the HTTP endpoints
    batch followed by one gRPC endpoint, the last endpoint of the last gRPC
    service, in the order stored when the walk ends, that has one. *)
Theorem last_stage_shape
        {St : Type} (walk : SetWalker St) (r : RootExpr) (s : St) :
  forallb isResultTypeExpr (ResultTypes r) = true ->
  let o := WalkSets walk (start r s) in
  exists api' endpoints,
    API (root (final o)) = Some api' /\
    nth_error (batches o) 6 = Some endpoints /\
    nth_error (batches o) 9 =
    Some (match rev (flat_map GRPCEndpoints (GRPC_Services (GRPC api'))) with
          | [] => []
          | e :: _ => endpoints ++ [Some (ExprGRPCEndpoint e)]
          end).
Proof.
  intros H. cbv zeta. rewrite batches_WalkSets, (root_after_walk walk r s H), H.
  eexists. eexists. split; [reflexivity|]. split; [reflexivity|].
  unfold stages, last_stage. cbn [nth_error]. f_equal.
  apply range_GRPCEndpoints_shape.
Qed.

Lemma last_stage_shape_witness :
  nth_error (batches (WalkSets never_fails
                        (start (sample_root (Some (sample_api [hA] [gX]))) tt))) 9 =
  Some [].
Proof.
  destruct (last_stage_shape never_fails
              (sample_root (Some (sample_api [hA] [gX]))) tt eq_refl)
    as (api' & endpoints & Hapi & _ & H9).
  injection Hapi as <-. exact H9.
Defined.



(** ** Walks and the other operations *)

(** X17. After a walk, whether it returned or panicked, the registry
    validates: [Validate] reports no failure. *)
Theorem Validate_after_walk
        {St : Type} (walk : SetWalker St) (r : RootExpr) (s : St) :
  Validate (root (final (WalkSets walk (start r s)))) = [].
Proof.
  rewrite root_WalkSets.
  destruct (forallb isResultTypeExpr (ResultTypes r)); reflexivity.
Qed.

(** X18. A walk changes the answer of no lookup: [UserType], [Service],
    [Error] and [GeneratedResultType] return after the walk what they
    returned before it, for every name and identifier. *)
Theorem lookups_survive_a_walk
        {St : Type} (walk : SetWalker St) (r : RootExpr) (s : St) (name : string) :
  let r' := root (final (WalkSets walk (start r s))) in
  UserType r' name = UserType r name /\
  Service r' name = Service r name /\
  Error r' name = Error r name /\
  GeneratedResultType r' name = GeneratedResultType r name.
Proof.
  cbv zeta. rewrite root_WalkSets.
  destruct (forallb isResultTypeExpr (ResultTypes r)); repeat split; reflexivity.
Qed.

(** ** Walks and the order of the transport services *)

Lemma sorted_HTTP_by_parent (r : RootExpr) :
  sorted_HTTP r =
  SliceStable (less_by HTTP_parent_of) (HTTP_Services (HTTP (API_of r))).
Proof. reflexivity. Qed.

Lemma sorted_GRPC_by_parent (r : RootExpr) :
  sorted_GRPC r =
  SliceStable (less_by GRPC_parent_of) (GRPC_Services (GRPC (API_of r))).
Proof. reflexivity. Qed.

Lemma walked_at_rest (r : RootExpr) :
  sorted_HTTP r = HTTP_Services (HTTP (API_of r)) ->
  sorted_GRPC r = GRPC_Services (GRPC (API_of r)) ->
  walked r = with_API r (API_of r).
Proof.
  unfold walked. intros -> ->.
  destruct (API_of r) as [n sv [h] [g]]. reflexivity.
Qed.

Lemma walk_at_rest {St : Type} (walk : SetWalker St) (r : RootExpr) (s : St) :
  sorted_HTTP r = HTTP_Services (HTTP (API_of r)) ->
  sorted_GRPC r = GRPC_Services (GRPC (API_of r)) ->
  registry_unchanged walk r s /\
  (forallb isResultTypeExpr (ResultTypes r) = true ->
   nth_error (batches (WalkSets walk (start r s))) 5 =
   Some (map (fun svc => Some (ExprHTTPService svc))
             (HTTP_Services (HTTP (API_of r)))) /\
   nth_error (batches (WalkSets walk (start r s))) 8 =
   Some (map (fun svc => Some (ExprGRPCService svc))
             (GRPC_Services (GRPC (API_of r))))).
Proof.
  intros HH HG. split.
  - unfold registry_unchanged. rewrite root_WalkSets, (walked_at_rest r HH HG).
    destruct (forallb isResultTypeExpr (ResultTypes r)); reflexivity.
  - intros H. rewrite batches_WalkSets, H. unfold stages. cbn [nth_error].
    rewrite HH, HG. split; reflexivity.
Qed.

(** X19. When no HTTP service is the parent of an HTTP service and no gRPC
    service the parent of a gRPC service, a walk leaves the registry as it
    was, apart from the default API node, however many services there are;
    the HTTP and gRPC services batches are the stored sequences. *)
Theorem walk_without_parents_changes_nothing
        {St : Type} (walk : SetWalker St) (r : RootExpr) (s : St) :
  unrelated HTTP_parent_of (HTTP_Services (HTTP (API_of r))) ->
  unrelated GRPC_parent_of (GRPC_Services (GRPC (API_of r))) ->
  registry_unchanged walk r s /\
  (forallb isResultTypeExpr (ResultTypes r) = true ->
   nth_error (batches (WalkSets walk (start r s))) 5 =
   Some (map (fun svc => Some (ExprHTTPService svc))
             (HTTP_Services (HTTP (API_of r)))) /\
   nth_error (batches (WalkSets walk (start r s))) 8 =
   Some (map (fun svc => Some (ExprGRPCService svc))
             (GRPC_Services (GRPC (API_of r))))).
Proof.
  intros HH HG. apply walk_at_rest.
  - rewrite sorted_HTTP_by_parent. apply SliceStable_unrelated, HH.
  - rewrite sorted_GRPC_by_parent. apply SliceStable_unrelated, HG.
Qed.

Lemma walk_without_parents_changes_nothing_witness :
  registry_unchanged never_fails
    (sample_root (Some (sample_api [hA; hX] [gX; gA]))) tt.
Proof.
  apply (walk_without_parents_changes_nothing
           never_fails (sample_root (Some (sample_api [hA; hX] [gX; gA]))) tt).
  - intros x y [<-|[<-|[]]] [<-|[<-|[]]]; reflexivity.
  - intros x y [<-|[<-|[]]] [<-|[<-|[]]]; reflexivity.
Defined.

(** X20. With fewer than 20 HTTP services and fewer than 20 gRPC services,
    none of them the parent of the service stored just before it, a walk
    leaves the registry as it was, apart from the default API node, and
    presents the services in the stored order: a parent stored further
    behind its child stays behind it. *)
Theorem walk_moves_neighbours_only
        {St : Type} (walk : SetWalker St) (r : RootExpr) (s : St) :
  List.length (HTTP_Services (HTTP (API_of r))) < 20 ->
  List.length (GRPC_Services (GRPC (API_of r))) < 20 ->
  no_parent_behind HTTP_parent_of (HTTP_Services (HTTP (API_of r))) ->
  no_parent_behind GRPC_parent_of (GRPC_Services (GRPC (API_of r))) ->
  registry_unchanged walk r s /\
  (forallb isResultTypeExpr (ResultTypes r) = true ->
   nth_error (batches (WalkSets walk (start r s))) 5 =
   Some (map (fun svc => Some (ExprHTTPService svc))
             (HTTP_Services (HTTP (API_of r)))) /\
   nth_error (batches (WalkSets walk (start r s))) 8 =
   Some (map (fun svc => Some (ExprGRPCService svc))
             (GRPC_Services (GRPC (API_of r))))).
Proof.
  intros HnH HnG HH HG. apply walk_at_rest.
  - rewrite sorted_HTTP_by_parent. now apply SliceStable_no_parent_behind.
  - rewrite sorted_GRPC_by_parent. now apply SliceStable_no_parent_behind.
Qed.

Lemma walk_moves_neighbours_only_witness :
  HTTP_parent_of hA hB = true /\
  registry_unchanged never_fails
    (sample_root (Some (sample_api [hB; hX; hA] [gB; gX; gA]))) tt.
Proof.
  split; [reflexivity|].
  apply (walk_moves_neighbours_only
           never_fails (sample_root (Some (sample_api [hB; hX; hA] [gB; gX; gA]))) tt).
  - simpl. lia.
  - simpl. lia.
  - simpl. repeat split; reflexivity.
  - simpl. repeat split; reflexivity.
Defined.

(** X21. With fewer than 20 HTTP services, a child stored just before its
    parent, and no other service the parent of its left neighbour, before
    or after the two are exchanged, a walk that gets past the result types
    exchanges the two and moves nothing else: the HTTP services batch and
    the sequence the registry stores afterwards have the parent just before
    the child. *)
Theorem child_just_before_parent_is_moved
        {St : Type} (walk : SetWalker St) (r : RootExpr) (s : St)
        (l1 l2 : list HTTPServiceExpr) (a b : HTTPServiceExpr) :
  HTTP_Services (HTTP (API_of r)) = l1 ++ b :: a :: l2 ->
  List.length (l1 ++ b :: a :: l2) < 20 ->
  HTTP_parent_of a b = true ->
  no_parent_behind HTTP_parent_of (l1 ++ [b]) ->
  no_parent_behind HTTP_parent_of (l1 ++ [a]) ->
  no_parent_behind HTTP_parent_of (b :: l2) ->
  forallb isResultTypeExpr (ResultTypes r) = true ->
  let o := WalkSets walk (start r s) in
  nth_error (batches o) 5 =
  Some (map (fun svc => Some (ExprHTTPService svc)) (l1 ++ a :: b :: l2)) /\
  exists api',
    API (root (final o)) = Some api' /\
    HTTP_Services (HTTP api') = l1 ++ a :: b :: l2.
Proof.
  intros Hd Hn Hab H1b H1a Hb2 H. cbv zeta.
  assert (Hs : sorted_HTTP r = l1 ++ a :: b :: l2).
  { rewrite sorted_HTTP_by_parent, Hd.
    now apply SliceStable_child_then_parent. }
  rewrite batches_WalkSets, (root_after_walk walk r s H), H. split.
  - unfold stages. cbn [nth_error]. now rewrite Hs.
  - eexists. split; [reflexivity|]. exact Hs.
Qed.

Lemma child_just_before_parent_is_moved_witness :
  nth_error
    (batches (WalkSets never_fails
                (start (sample_root (Some (sample_api [hX; hB; hA] []))) tt))) 5 =
  Some (map (fun svc => Some (ExprHTTPService svc)) [hX; hA; hB]).
Proof.
  refine (proj1 (child_just_before_parent_is_moved
                   never_fails (sample_root (Some (sample_api [hX; hB; hA] []))) tt
                   [hX] [] hA hB eq_refl _ eq_refl _ _ _ eq_refl)).
  - simpl. lia.
  - simpl. repeat split; reflexivity.
  - simpl. repeat split; reflexivity.
  - simpl. exact I.
Defined.
